(** * Registry scanner: a model of [enum.py] and its verified properties

    The scanner walks a Windows registry hive through the [winreg] binding
    ([OpenKey], [EnumValue], [EnumKey], [CloseKey]) and collects every key
    name, value name and value datum that contains a search string.

    The development is organised as follows:
    - [PyStr]: the Python string operations the scanner uses;
    - [Winreg]: the registry binding, as an oracle plus a handle table and
      a log of the calls made;
    - [Scanner]: [scan_registry_key] and the loop of [main], in a small
      state-and-exception monad with fuel for the [while True] loops;
    - [Shape]: finite descriptions of what a scan observes of a hive, and
      the declarative result [expected] the scanner is compared with;
    - [Steps]: the scanner unfolded one step at a time;
    - [Tidy]: what every call leaves behind (handles, order of calls);
    - [Refinement]: the scanner returns [expected], and nothing else;
    - [Examples] and [Properties]: sample hives and the properties;
    - [Paths], [Records], [Trace], [MainLoop]: paths and names, what the
      records say, the calls a scan makes, the loop of [main];
    - [AnyLower]: the scanner with [str.lower] left open, and what depends
      on the lowercasing. *)

From Stdlib Require Import String Ascii List Arith Bool Lia.
From stdpp Require Import base option list gmap strings.

Local Open Scope string_scope.
Local Open Scope list_scope.
Local Set Warnings "-register-all".

(* ===================================================================== *)
(** * Python strings *)
(* ===================================================================== *)

Module PyStr.

(** [str.lower()], restricted to the ASCII range: [A-Z] is mapped to
    [a-z], every other character is left alone.  Python's [str.lower]
    agrees with it on strings of ASCII characters only; module [AnyLower]
    has the scanner with the lowercasing left open. *)
Definition lower_char (c : ascii) : ascii :=
  let n := nat_of_ascii c in
  if (65 <=? n)%nat && (n <=? 90)%nat then ascii_of_nat (n + 32) else c.

Fixpoint lower (s : string) : string :=
  match s with
  | EmptyString => EmptyString
  | String c s' => String (lower_char c) (lower s')
  end.

(** [s.startswith(p)] *)
Fixpoint startswith (s p : string) {struct p} : bool :=
  match p, s with
  | EmptyString, _ => true
  | String _ _, EmptyString => false
  | String a p', String b s' => Ascii.eqb a b && startswith s' p'
  end.

(** [sub in s]: [sub] occurs in [s] as a contiguous run of characters. *)
Fixpoint str_in (sub s : string) : bool :=
  startswith s sub
  || match s with
     | EmptyString => false
     | String _ s' => str_in sub s'
     end.

(** [s.split(sep)] for a one-character separator; the list it returns is
    never empty. *)
Fixpoint split (sep : ascii) (s : string) : list string :=
  match s with
  | EmptyString => [EmptyString]
  | String c s' =>
      if Ascii.eqb c sep then EmptyString :: split sep s'
      else match split sep s' with
           | [] => [String c EmptyString]
           | seg :: rest => String c seg :: rest
           end
  end.

(** [l[-1]] on a list of strings. *)
Definition last_item (l : list string) : string := List.last l EmptyString.

(** [bool(s)]: a string is truthy when it is not empty. *)
Definition truthy (s : string) : bool :=
  match s with EmptyString => false | String _ _ => true end.

Definition backslash : ascii := "\"%char.

Lemma startswith_iff s p : startswith s p = true <-> exists t, s = p +:+ t.
Proof.
  revert s. induction p as [|a p IH]; intros s; simpl.
  - split; [intros _; now exists s | reflexivity].
  - destruct s as [|b s]; simpl.
    + split; [discriminate | intros [t Ht]; discriminate].
    + rewrite andb_true_iff, Ascii.eqb_eq, IH. split.
      * intros [-> [t ->]]. now exists t.
      * intros [t Ht]. injection Ht as -> ->. split; [reflexivity | now exists t].
Qed.

Lemma str_in_iff sub s :
  str_in sub s = true <-> exists pre post, s = pre +:+ sub +:+ post.
Proof.
  induction s as [|c s IH]; simpl.
  - rewrite orb_false_r, startswith_iff. split.
    + intros [t Ht]. now exists EmptyString, t.
    + intros [pre [post H]]. destruct pre; [now exists post | discriminate].
  - rewrite orb_true_iff, startswith_iff, IH. split.
    + intros [[t Ht] | [pre [post H]]].
      * now exists EmptyString, t.
      * exists (String c pre), post. simpl. now rewrite H.
    + intros [pre [post H]]. destruct pre as [|d pre]; simpl in H.
      * left. now exists post.
      * right. injection H as -> ->. now exists pre, post.
Qed.

Lemma str_in_empty s : str_in EmptyString s = true.
Proof. destruct s; reflexivity. Qed.

Lemma str_in_of_empty sub : str_in sub EmptyString = true <-> sub = EmptyString.
Proof.
  destruct sub; simpl; split; try reflexivity; discriminate.
Qed.

Lemma app_cons c (s t : string) : String c s +:+ t = String c (s +:+ t).
Proof. reflexivity. Qed.

Lemma app_empty_l (s : string) : EmptyString +:+ s = s.
Proof. reflexivity. Qed.

Lemma app_empty_r (s : string) : s +:+ EmptyString = s.
Proof. induction s as [|c s IH]; [reflexivity|]. now rewrite app_cons, IH. Qed.

Lemma str_in_refl s : str_in s s = true.
Proof.
  apply str_in_iff. exists EmptyString, EmptyString. simpl.
  now rewrite app_empty_r.
Qed.

Lemma lower_length s : String.length (lower s) = String.length s.
Proof. induction s; simpl; congruence. Qed.

Lemma lower_empty_iff s : lower s = EmptyString <-> s = EmptyString.
Proof. destruct s; simpl; split; try reflexivity; discriminate. Qed.

Lemma split_nonempty sep s : split sep s <> [].
Proof.
  destruct s as [|c s]; simpl; [discriminate|].
  destruct (Ascii.eqb c sep); [discriminate|].
  destruct (split sep s); discriminate.
Qed.

End PyStr.

(* ===================================================================== *)
(** * The [winreg] binding *)
(* ===================================================================== *)

Module Winreg.

(** The exception classes the handlers of the scanner tell apart.  All of
    them derive from [Exception]. *)
Inductive exn : Type :=
| PermissionError     (* an OSError subclass: access denied *)
| FileNotFoundError   (* an OSError subclass: no such key *)
| NoMoreItems         (* OSError, WinError 259: the index is past the end *)
| OSError             (* any other OSError *)
| OtherException.     (* an Exception that is not an OSError *)

Definition is_PermissionError (e : exn) : bool :=
  match e with PermissionError => true | _ => false end.
Definition is_FileNotFoundError (e : exn) : bool :=
  match e with FileNotFoundError => true | _ => false end.
Definition is_OSError (e : exn) : bool :=
  match e with OtherException => false | _ => true end.
Definition is_Exception (e : exn) : bool := true.

Inductive result (A : Type) : Type :=
| Ok (a : A)
| Raise (e : exn).
Arguments Ok {A} a.
Arguments Raise {A} e.

(** The predefined hive handles listed in [ROOT_KEYS]. *)
Inductive HKEY : Type :=
| HKEY_CLASSES_ROOT
| HKEY_CURRENT_USER
| HKEY_LOCAL_MACHINE
| HKEY_USERS
| HKEY_CURRENT_CONFIG.

(** The data of a registry value as the Python object [EnumValue] hands
    out: [None], or an object described by what [str()] does on it. *)
Inductive reg_data : Type :=
| PyNone
| PyObject (str : result string).

(** One answer of [EnumValue]: name, data, type tag. *)
Definition reg_value : Type := string * reg_data * nat.

(** The registry of the machine, as the binding answers for it.  Keys are
    addressed by hive and path; an enumeration is addressed by index. *)
Record registry : Type := {
  reg_open   : HKEY -> string -> option exn;   (* [None]: the key opens *)
  reg_values : HKEY -> string -> nat -> result reg_value;
  reg_subkey : HKEY -> string -> nat -> result string;
  reg_close  : HKEY -> string -> option exn    (* [None]: the close works *)
}.

(** What the binding was asked, in order. *)
Inductive event : Type :=
| EvOpenKey   (root : HKEY) (path : string)
| EvEnumValue (root : HKEY) (path : string) (index : nat)
| EvEnumKey   (root : HKEY) (path : string) (index : nat)
| EvCloseKey  (root : HKEY) (path : string).

(** The state of the binding: the open handles with the key each one
    refers to, and the log of the calls made so far. *)
Record world : Type := {
  handles : gmap positive (HKEY * string);
  calls   : list event
}.

Definition initial_world : world := {| handles := ∅; calls := [] |}.

Definition log (ev : event) (w : world) : world :=
  {| handles := handles w; calls := calls w ++ [ev] |}.

Section Binding.
Context (reg : registry).

(** [winreg.OpenKey(root_key, sub_key, 0, KEY_READ)] *)
Definition OpenKey (root_key : HKEY) (sub_key : string) (w : world)
  : world * result positive :=
  let w := log (EvOpenKey root_key sub_key) w in
  match reg_open reg root_key sub_key with
  | Some e => (w, Raise e)
  | None =>
      let key := fresh (dom (handles w)) in
      ({| handles := <[key := (root_key, sub_key)]> (handles w);
          calls := calls w |}, Ok key)
  end.

(** [winreg.EnumValue(key, index)] *)
Definition EnumValue (key : positive) (index : nat) (w : world)
  : world * result reg_value :=
  match handles w !! key with
  | None => (w, Raise OSError)              (* the handle is invalid *)
  | Some (root, path) =>
      (log (EvEnumValue root path index) w, reg_values reg root path index)
  end.

(** [winreg.EnumKey(key, index)] *)
Definition EnumKey (key : positive) (index : nat) (w : world)
  : world * result string :=
  match handles w !! key with
  | None => (w, Raise OSError)
  | Some (root, path) =>
      (log (EvEnumKey root path index) w, reg_subkey reg root path index)
  end.

(** [winreg.CloseKey(key)]: a close that fails leaves the handle open. *)
Definition CloseKey (key : positive) (w : world) : world * result unit :=
  match handles w !! key with
  | None => (w, Raise OSError)
  | Some (root, path) =>
      let w := log (EvCloseKey root path) w in
      match reg_close reg root path with
      | Some e => (w, Raise e)
      | None =>
          ({| handles := delete key (handles w); calls := calls w |}, Ok tt)
      end
  end.
End Binding.

End Winreg.

(* ===================================================================== *)
(** * The scanner *)
(* ===================================================================== *)

Module Scanner.
Import PyStr Winreg.

(** A result tuple [(full_path, match_type, match_value)]. *)
Definition match_record : Type := string * string * string.

(** ** A state-and-exception monad

    A computation runs on the state of the binding and the list
    [results] of the running call.  It returns a value or raises; what it
    appended to [results] before raising stays appended.  [None] means
    that a [while True] loop ran out of fuel. *)
Definition frame : Type := world * list match_record.
Definition M (A : Type) : Type := frame -> option (frame * result A).

Definition ret {A} (a : A) : M A := fun s => Some (s, Ok a).
Definition raise {A} (e : exn) : M A := fun s => Some (s, Raise e).
Definition out_of_fuel {A} : M A := fun _ => None.

Definition bind {A B} (m : M A) (f : A -> M B) : M B :=
  fun s =>
    match m s with
    | None => None
    | Some (s', Ok a) => f a s'
    | Some (s', Raise e) => Some (s', Raise e)
    end.

Notation "x <- m ;; k" := (bind m (fun x => k))
  (at level 20, m at level 99, k at level 200, only parsing).
Notation "m ;;; k" := (bind m (fun _ => k))
  (at level 100, k at level 200, right associativity, only parsing).

Definition pass : M unit := ret tt.

(** [if c: m] *)
Definition when (c : bool) (m : M unit) : M unit := if c then m else pass.

(** The [except] clauses of a [try], tried in order. *)
Fixpoint dispatch {A} (clauses : list ((exn -> bool) * M A)) (e : exn) : M A :=
  match clauses with
  | [] => raise e
  | (catches, handler) :: rest =>
      if catches e then handler else dispatch rest e
  end.

Definition try_ {A} (body : M A) (clauses : list ((exn -> bool) * M A)) : M A :=
  fun s =>
    match body s with
    | Some (s', Raise e) => dispatch clauses e s'
    | other => other
    end.

(** [results.append(r)] and [results.extend(rs)] *)
Definition append (r : match_record) : M unit :=
  fun '(w, results) => Some ((w, results ++ [r]), Ok tt).
Definition extend (rs : list match_record) : M unit :=
  fun '(w, results) => Some ((w, results ++ rs), Ok tt).

(** A call of the binding. *)
Definition winreg {A} (op : world -> world * result A) : M A :=
  fun '(w, results) => let '(w', r) := op w in Some ((w', results), r).

(** A call of a function that has a [results] list of its own. *)
Definition call {A} (f : world -> option (world * result A)) : M A :=
  fun '(w, results) =>
    match f w with
    | None => None
    | Some (w', r) => Some ((w', results), r)
    end.

(** [str(obj)] *)
Definition py_str (obj : result string) : M string :=
  match obj with Ok s => ret s | Raise e => raise e end.

(** [while True:] over an index that the body advances by one each time
    it runs to its end; [Break] is the [break] statement. *)
Inductive loop_ctl : Type := Continue | Break.

Fixpoint while_True (fuel : nat) (body : nat -> M loop_ctl) (index : nat) : M unit :=
  match fuel with
  | O => out_of_fuel
  | S fuel' =>
      ctl <- body index ;;
      match ctl with
      | Break => ret tt
      | Continue => while_True fuel' body (S index)
      end
  end.

Definition KEY_NAME : string := "KEY_NAME".
Definition VALUE_NAME : string := "VALUE_NAME".
Definition VALUE_DATA : string := "VALUE_DATA".

Section Scan.
Context (reg : registry).

(** One turn of the loop over the values of [key] (lines 55-75). *)
Definition value_step (key : positive) (key_path search_str : string)
    (case_sensitive : bool) (value_index : nat) : M loop_ctl :=
  try_
    (value <- winreg (EnumValue reg key value_index) ;;
     let '(value_name, value_data, value_type) := value in
     let check_value_name :=
       if case_sensitive then value_name else lower value_name in
     when (str_in search_str check_value_name)
          (append (key_path, VALUE_NAME, value_name)) ;;;
     match value_data with
     | PyNone => pass
     | PyObject obj =>
         try_
           (value_str <- py_str obj ;;
            let check_value_str :=
              if case_sensitive then value_str else lower value_str in
            when (str_in search_str check_value_str)
                 (append (key_path, VALUE_DATA,
                          value_name +:+ " = " +:+ value_str)))
           [(fun _ => true, pass)]
     end ;;;
     ret Continue)
    [(is_OSError, ret Break)].

(** One turn of the loop over the subkeys of [key] (lines 83-98);
    [scan] is the recursive call. *)
Definition subkey_step
    (scan : string -> world -> option (world * result (list match_record)))
    (key : positive) (key_path : string) (subkey_index : nat) : M loop_ctl :=
  try_
    (subkey_name <- winreg (EnumKey reg key subkey_index) ;;
     let subkey_path :=
       if truthy key_path then key_path +:+ "\" +:+ subkey_name
       else subkey_name in
     subkey_results <- call (scan subkey_path) ;;
     extend subkey_results ;;;
     ret Continue)
    [(is_OSError, ret Break)].

(** [scan_registry_key(root_key, key_path, search_string, case_sensitive)] *)
Fixpoint scan_registry_key (fuel : nat) (root_key : HKEY)
    (key_path search_string : string) (case_sensitive : bool) (w : world)
  : option (world * result (list match_record)) :=
  match fuel with
  | O => None
  | S fuel' =>
      let search_str :=
        if case_sensitive then search_string else lower search_string in
      let body : M unit :=
        try_
          (key <- winreg (OpenKey reg root_key key_path) ;;
           let key_name :=
             if str_in "\" key_path
             then last_item (split backslash key_path)
             else key_path in
           let check_name :=
             if case_sensitive then key_name else lower key_name in
           when (str_in search_str check_name)
                (append (key_path, KEY_NAME, key_name)) ;;;
           try_ (while_True fuel'
                   (value_step key key_path search_str case_sensitive) 0)
                [(is_Exception, pass)] ;;;
           try_ (while_True fuel'
                   (subkey_step
                      (fun subkey_path =>
                         scan_registry_key fuel' root_key subkey_path
                           search_string case_sensitive)
                      key key_path) 0)
                [(is_Exception, pass)] ;;;
           winreg (CloseKey reg key))
          [(is_PermissionError, pass);
           (is_FileNotFoundError, pass);
           (is_Exception, pass)] in
      (* results = [] ... return results *)
      match body (w, []) with
      | None => None
      | Some ((w', results), Ok _) => Some (w', Ok results)
      | Some ((w', _), Raise e) => Some (w', Raise e)
      end
  end.

(** [ROOT_KEYS], in the order the dictionary is written. *)
Definition ROOT_KEYS : list (string * HKEY) :=
  [("HKEY_CLASSES_ROOT", HKEY_CLASSES_ROOT);
   ("HKEY_CURRENT_USER", HKEY_CURRENT_USER);
   ("HKEY_LOCAL_MACHINE", HKEY_LOCAL_MACHINE);
   ("HKEY_USERS", HKEY_USERS);
   ("HKEY_CURRENT_CONFIG", HKEY_CURRENT_CONFIG)].

(** [f"[{root_name}\\{full_path}] {match_type}: {match_value}"] *)
Definition result_line (root_name : string) (r : match_record) : string :=
  let '(full_path, match_type, match_value) := r in
  "[" +:+ root_name +:+ "\" +:+ full_path +:+ "] "
      +:+ match_type +:+ ": " +:+ match_value.

(** The loop of [main] over [roots_to_scan] (lines 134-146): the lines
    of [all_results]. *)
Fixpoint scan_roots (fuel : nat) (roots_to_scan : list (string * HKEY))
    (search_string : string) (case_sensitive : bool) (w : world)
  : option (world * result (list string)) :=
  match roots_to_scan with
  | [] => Some (w, Ok [])
  | (root_name, root_key) :: rest =>
      match scan_registry_key fuel root_key "" search_string case_sensitive w with
      | None => None
      | Some (w', Raise e) => Some (w', Raise e)
      | Some (w', Ok results) =>
          match scan_roots fuel rest search_string case_sensitive w' with
          | None => None
          | Some (w'', Raise e) => Some (w'', Raise e)
          | Some (w'', Ok lines) =>
              Some (w'', Ok (map (result_line root_name) results ++ lines))
          end
      end
  end.
End Scan.

End Scanner.

(* ===================================================================== *)
(** * What a scan observes, and what it is expected to return *)
(* ===================================================================== *)

Module Shape.
Import PyStr Winreg Scanner.

(** ** The match test of the specification *)

Definition fold_case (case_sensitive : bool) (s : string) : string :=
  if case_sensitive then s else lower s.

(** [matches candidate term caseSensitive] *)
Definition matches (candidate term : string) (case_sensitive : bool) : bool :=
  str_in (fold_case case_sensitive term) (fold_case case_sensitive candidate).

(** The name of a key: the last segment of its path. *)
Definition key_name_of (path : string) : string :=
  if str_in "\" path then last_item (split backslash path) else path.

(** The path of a child: parent path, separator, child name. *)
Definition child_path (path name : string) : string :=
  if truthy path then path +:+ "\" +:+ name else name.

Definition own_match (path term : string) (cs : bool) : list match_record :=
  if matches (key_name_of path) term cs
  then [(path, KEY_NAME, key_name_of path)] else [].

Definition name_match (path term : string) (cs : bool) (name : string)
  : list match_record :=
  if matches name term cs then [(path, VALUE_NAME, name)] else [].

Definition data_match (path term : string) (cs : bool) (name : string)
    (data : reg_data) : list match_record :=
  match data with
  | PyObject (Ok rendered) =>
      if matches rendered term cs
      then [(path, VALUE_DATA, name +:+ " = " +:+ rendered)] else []
  | PyObject (Raise _) => []
  | PyNone => []
  end.

(** The records of one value: the name check, then the data check. *)
Definition value_matches (path term : string) (cs : bool) (v : reg_value)
  : list match_record :=
  let '(name, data, _) := v in
  name_match path term cs name ++ data_match path term cs name data.

(** ** Finite descriptions of a key as a scan sees it

    A key either refuses to open, or it opens and shows the values and
    the subkeys that its enumerations hand out, in index order, up to the
    first index at which the enumeration raises. *)
Inductive shape : Type :=
| Denied (e : exn)
| Opened (vals : list reg_value) (vstop : exn)
         (kids : list (string * shape)) (kstop : exn)
         (close : option exn).

(** [enumerates f i l stop]: [f] answers [l] at the indices from [i] on,
    and raises [stop] at the index after the last one. *)
Fixpoint enumerates {A} (f : nat -> result A) (i : nat) (l : list A)
    (stop : exn) : Prop :=
  match l with
  | [] => f i = Raise stop
  | x :: l' => f i = Ok x /\ enumerates f (S i) l' stop
  end.

Inductive describes (reg : registry) (root : HKEY) : string -> shape -> Prop :=
| describes_denied path e :
    reg_open reg root path = Some e ->
    describes reg root path (Denied e)
| describes_opened path vals vstop kids kstop close :
    reg_open reg root path = None ->
    enumerates (reg_values reg root path) 0 vals vstop ->
    enumerates (reg_subkey reg root path) 0 (map fst kids) kstop ->
    Forall (fun k => describes reg root (child_path path (fst k)) (snd k)) kids ->
    reg_close reg root path = close ->
    describes reg root path (Opened vals vstop kids kstop close).

(** The result the specification asks for: own match, value matches,
    then the children's results in index order. *)
Fixpoint expected (path term : string) (cs : bool) (sh : shape)
  : list match_record :=
  match sh with
  | Denied _ => []
  | Opened vals _ kids _ _ =>
      own_match path term cs
      ++ flat_map (value_matches path term cs) vals
      ++ flat_map (fun k => expected (child_path path (fst k)) term cs (snd k)) kids
  end.

(** The keys a scan opens below [path], each with the values it shows. *)
Fixpoint scanned (path : string) (sh : shape) : list (string * list reg_value) :=
  match sh with
  | Denied _ => []
  | Opened vals _ kids _ _ =>
      (path, vals)
      :: flat_map (fun k => scanned (child_path path (fst k)) (snd k)) kids
  end.

(** Induction on shapes, with the hypothesis for every child. *)
Lemma shape_ind' (P : shape -> Prop) :
  (forall e, P (Denied e)) ->
  (forall vals vstop kids kstop close,
      Forall (fun k => P (snd k)) kids ->
      P (Opened vals vstop kids kstop close)) ->
  forall sh, P sh.
Proof.
  intros Hd Ho. fix IH 1. intros [e | vals vstop kids kstop close].
  - apply Hd.
  - apply Ho. induction kids as [|[n s] kids IHk]; constructor.
    + apply IH.
    + apply IHk.
Qed.

End Shape.

(* ===================================================================== *)
(** * The scanner, step by step *)
(* ===================================================================== *)

Module Steps.
Import PyStr Winreg Scanner Shape.

Section WithRegistry.
Context (reg : registry).

(** The state after a successful [OpenKey]. *)
Definition opened_world (root : HKEY) (path : string) (w : world) : world :=
  {| handles := <[fresh (dom (handles w)) := (root, path)]> (handles w);
     calls := calls w ++ [EvOpenKey root path] |}.

Lemma OpenKey_denied root path w e :
  reg_open reg root path = Some e ->
  OpenKey reg root path w = (log (EvOpenKey root path) w, Raise e).
Proof. intros H. unfold OpenKey. now rewrite H. Qed.

Lemma OpenKey_opened root path w :
  reg_open reg root path = None ->
  OpenKey reg root path w
  = (opened_world root path w, Ok (fresh (dom (handles w)))).
Proof. intros H. unfold OpenKey. now rewrite H. Qed.

(** One turn of the value loop, when the handle is valid. *)
Lemma value_step_eq key root path term cs i w res :
  handles w !! key = Some (root, path) ->
  value_step reg key path (fold_case cs term) cs i (w, res)
  = match reg_values reg root path i with
    | Ok v =>
        Some ((log (EvEnumValue root path i) w,
               res ++ value_matches path term cs v), Ok Continue)
    | Raise e =>
        Some ((log (EvEnumValue root path i) w, res),
              if is_OSError e then Ok Break else Raise e)
    end.
Proof.
  intros Hkey.
  unfold value_step, try_, bind, winreg, EnumValue. rewrite Hkey.
  destruct (reg_values reg root path i) as [[[name data] ty] | e]; simpl.
  - unfold value_matches, name_match, data_match, matches, when, pass, ret,
      append, try_, bind, py_str, raise.
    destruct cs; simpl;
      destruct (str_in _ _); simpl;
      destruct data as [|[rendered|e]]; simpl;
      rewrite ?app_nil_r; try reflexivity;
      destruct (str_in _ _); simpl;
      rewrite ?app_nil_r, <- ?app_assoc; reflexivity.
  - destruct e; reflexivity.
Qed.

(** One turn of the subkey loop, when the handle is valid. *)
Lemma subkey_step_eq scan key root path i w res :
  handles w !! key = Some (root, path) ->
  subkey_step reg scan key path i (w, res)
  = match reg_subkey reg root path i with
    | Ok name =>
        match scan (child_path path name) (log (EvEnumKey root path i) w) with
        | None => None
        | Some (w', Ok l) => Some ((w', res ++ l), Ok Continue)
        | Some (w', Raise e) =>
            Some ((w', res), if is_OSError e then Ok Break else Raise e)
        end
    | Raise e =>
        Some ((log (EvEnumKey root path i) w, res),
              if is_OSError e then Ok Break else Raise e)
    end.
Proof.
  intros Hkey.
  unfold subkey_step, try_, bind, winreg, EnumKey. rewrite Hkey.
  destruct (reg_subkey reg root path i) as [name | e]; simpl.
  - unfold call, child_path.
    destruct (scan _ _) as [[w' [l | e]]|]; simpl; try reflexivity.
    destruct e; reflexivity.
  - destruct e; reflexivity.
Qed.

(** The loops, one turn unfolded. *)
Lemma while_True_S fuel body i s :
  while_True (S fuel) body i s
  = match body i s with
    | None => None
    | Some (s', Ok Continue) => while_True fuel body (S i) s'
    | Some (s', Ok Break) => Some (s', Ok tt)
    | Some (s', Raise e) => Some (s', Raise e)
    end.
Proof.
  simpl. unfold bind. destruct (body i s) as [[s' [[|]|e]]|]; reflexivity.
Qed.

(** [scan_registry_key], with its handlers resolved. *)
Lemma scan_registry_key_S fuel root path term cs w :
  scan_registry_key reg (S fuel) root path term cs w
  = match reg_open reg root path with
    | Some e => Some (log (EvOpenKey root path) w, Ok [])
    | None =>
        let key := fresh (dom (handles w)) in
        match while_True fuel
                (value_step reg key path (fold_case cs term) cs) 0
                (opened_world root path w, own_match path term cs) with
        | None => None
        | Some ((w1, res1), _) =>
            match while_True fuel
                    (subkey_step reg
                       (fun q => scan_registry_key reg fuel root q term cs)
                       key path) 0 (w1, res1) with
            | None => None
            | Some ((w2, res2), _) =>
                Some (fst (CloseKey reg key w2), Ok res2)
            end
        end
    end.
Proof.
  cbn [scan_registry_key]. unfold try_ at 1. unfold bind at 1.
  unfold winreg at 1.
  destruct (reg_open reg root path) as [e|] eqn:Hopen.
  - rewrite (OpenKey_denied _ _ _ _ Hopen). destruct e; reflexivity.
  - rewrite (OpenKey_opened _ _ _ Hopen).
    change (if cs then term else lower term) with (fold_case cs term).
    unfold bind at 1.
    replace (when _ (append (path, KEY_NAME, _)) (opened_world root path w, []))
      with (Some ((opened_world root path w, own_match path term cs), Ok tt)).
    2:{ unfold own_match, matches, key_name_of, fold_case, when, pass, ret.
        destruct cs; destruct (str_in _ _); reflexivity. }
    unfold bind at 1. unfold try_ at 1.
    destruct (while_True fuel (value_step _ _ _ _ _) 0 _)
      as [[[w1 res1] [[]|e]]|]; [| |reflexivity].
    + simpl dispatch. unfold bind at 1. unfold try_ at 1.
      destruct (while_True fuel (subkey_step _ _ _ _) 0 _)
        as [[[w2 res2] [[]|e]]|]; [| |reflexivity].
      * unfold winreg. destruct (CloseKey reg _ w2) as [w3 [[]|e]]; simpl.
        -- reflexivity.
        -- destruct e; reflexivity.
      * simpl. unfold pass, ret, winreg.
        destruct (CloseKey reg _ w2) as [w3 [[]|e']]; simpl.
        -- reflexivity.
        -- destruct e'; reflexivity.
    + simpl. unfold pass, ret. unfold bind at 1. unfold try_ at 1.
      destruct (while_True fuel (subkey_step _ _ _ _) 0 _)
        as [[[w2 res2] [[]|e']]|]; [| |reflexivity].
      * unfold winreg. destruct (CloseKey reg _ w2) as [w3 [[]|e']]; simpl.
        -- reflexivity.
        -- destruct e'; reflexivity.
      * simpl. unfold pass, ret, winreg.
        destruct (CloseKey reg _ w2) as [w3 [[]|e'']]; simpl.
        -- reflexivity.
        -- destruct e''; reflexivity.
Qed.

End WithRegistry.
End Steps.

(* ===================================================================== *)
(** * What every call leaves behind *)
(* ===================================================================== *)

Module Tidy.
Import PyStr Winreg Scanner Shape Steps.

Section WithRegistry.
Context (reg : registry).

(** An enumeration index is asked for only after every lower index of
    the same key was answered. *)
Definition in_order (ev : event) : Prop :=
  match ev with
  | EvEnumValue root path i =>
      forall j, j < i -> exists v, reg_values reg root path j = Ok v
  | EvEnumKey root path i =>
      forall j, j < i -> exists name, reg_subkey reg root path j = Ok name
  | _ => True
  end.

(** The contract of [closeKey]: it does not fail. *)
Definition closes_ok : Prop :=
  forall root path, reg_close reg root path = None.

(** [tidy w w']: from [w] to [w'] no handle of [w] was lost, no handle
    was left behind if closes work, and the calls made were in order. *)
Record tidy (w w' : world) : Prop := {
  tidy_keeps : handles w ⊆ handles w';
  tidy_releases : closes_ok -> handles w' = handles w;
  tidy_calls : exists evs, calls w' = calls w ++ evs /\ Forall in_order evs
}.

Lemma tidy_refl w : tidy w w.
Proof.
  split; [reflexivity | reflexivity |].
  exists []. split; [now rewrite app_nil_r | constructor].
Qed.

Lemma tidy_trans w1 w2 w3 : tidy w1 w2 -> tidy w2 w3 -> tidy w1 w3.
Proof.
  intros [K1 R1 (e1 & C1 & O1)] [K2 R2 (e2 & C2 & O2)]. split.
  - now transitivity (handles w2).
  - intros Hc. now rewrite R2, R1.
  - exists (e1 ++ e2). split.
    + now rewrite C2, C1, app_assoc.
    + now apply Forall_app.
Qed.

Lemma tidy_log ev w : in_order ev -> tidy w (log ev w).
Proof.
  intros Hev. split; simpl; [reflexivity | reflexivity |].
  exists [ev]. split; [reflexivity | now constructor].
Qed.

Lemma tidy_lookup w w' key k :
  tidy w w' -> handles w !! key = Some k -> handles w' !! key = Some k.
Proof. intros [K _ _] H. exact (lookup_weaken _ _ _ _ H K). Qed.

(** The loop over the values. *)
Lemma value_loop_tidy key root path term cs fuel :
  forall i w res w' res' r,
    handles w !! key = Some (root, path) ->
    (forall j, j < i -> exists v, reg_values reg root path j = Ok v) ->
    while_True fuel (value_step reg key path (fold_case cs term) cs) i (w, res)
    = Some ((w', res'), r) ->
    tidy w w'.
Proof.
  induction fuel as [|fuel IH]; intros i w res w' res' r Hkey Hlow Hrun.
  - discriminate.
  - rewrite while_True_S, (value_step_eq _ _ _ _ _ _ _ _ _ Hkey) in Hrun.
    assert (Hstep : tidy w (log (EvEnumValue root path i) w))
      by now apply tidy_log.
    destruct (reg_values reg root path i) as [v|e] eqn:Hi.
    + eapply tidy_trans; [exact Hstep|].
      eapply (IH (S i)); [| |exact Hrun]; [exact Hkey|].
      intros j Hj. destruct (decide (j = i)) as [->|Hne]; [eauto|].
      apply Hlow. lia.
    + destruct (is_OSError e); injection Hrun as <- _ _; exact Hstep.
Qed.

(** The loop over the subkeys, for any recursive call that is tidy. *)
Lemma subkey_loop_tidy scan key root path fuel :
  (forall q w w' r, scan q w = Some (w', r) -> tidy w w') ->
  forall i w res w' res' r,
    handles w !! key = Some (root, path) ->
    (forall j, j < i -> exists name, reg_subkey reg root path j = Ok name) ->
    while_True fuel (subkey_step reg scan key path) i (w, res)
    = Some ((w', res'), r) ->
    tidy w w'.
Proof.
  intros Hscan.
  induction fuel as [|fuel IH]; intros i w res w' res' r Hkey Hlow Hrun.
  - discriminate.
  - rewrite while_True_S, (subkey_step_eq _ _ _ _ _ _ _ _ Hkey) in Hrun.
    assert (Hstep : tidy w (log (EvEnumKey root path i) w))
      by now apply tidy_log.
    destruct (reg_subkey reg root path i) as [name|e] eqn:Hi.
    + destruct (scan _ _) as [[w1 [l|e]]|] eqn:Hcall; [| |discriminate].
      * apply Hscan in Hcall.
        assert (Hmid : tidy w w1) by (eapply tidy_trans; eassumption).
        eapply tidy_trans; [exact Hmid|].
        eapply (IH (S i)); [| |exact Hrun].
        -- eapply tidy_lookup; eassumption.
        -- intros j Hj. destruct (decide (j = i)) as [->|Hne]; [eauto|].
           apply Hlow. lia.
      * apply Hscan in Hcall.
        destruct (is_OSError e); injection Hrun as <- _ _;
          eapply tidy_trans; eassumption.
    + destruct (is_OSError e); injection Hrun as <- _ _; exact Hstep.
Qed.

(** Closing the handle a call opened undoes the opening. *)
Lemma close_after_open root path w w2 :
  tidy (opened_world root path w) w2 ->
  tidy w (fst (CloseKey reg (fresh (dom (handles w))) w2)).
Proof.
  set (key := fresh (dom (handles w))).
  assert (Hfresh : handles w !! key = None)
    by (apply not_elem_of_dom, is_fresh).
  intros [K R (evs & C & O)]. simpl in K, R, C.
  assert (Hkey : handles w2 !! key = Some (root, path)).
  { eapply lookup_weaken; [|exact K]. apply lookup_insert_eq. }
  unfold CloseKey. rewrite Hkey.
  destruct (reg_close reg root path) as [e|] eqn:Hclose; simpl.
  - split; simpl.
    + etransitivity; [|exact K]. now apply insert_subseteq.
    + intros Hc. now rewrite Hc in Hclose.
    + exists ([EvOpenKey root path] ++ evs ++ [EvCloseKey root path]).
      split; [rewrite C; now rewrite <- !app_assoc|].
      apply Forall_app. split; [now repeat constructor|].
      apply Forall_app. split; [exact O | now repeat constructor].
  - split; simpl.
    + rewrite <- (delete_insert_id (handles w) key (root, path) Hfresh).
      now apply delete_mono.
    + intros Hc. rewrite (R Hc). now apply delete_insert_id.
    + exists ([EvOpenKey root path] ++ evs ++ [EvCloseKey root path]).
      split; [rewrite C; now rewrite <- !app_assoc|].
      apply Forall_app. split; [now repeat constructor|].
      apply Forall_app. split; [exact O | now repeat constructor].
Qed.

(** Every call of [scan_registry_key] is tidy. *)
Lemma scan_tidy fuel :
  forall root path term cs w w' r,
    scan_registry_key reg fuel root path term cs w = Some (w', r) ->
    tidy w w'.
Proof.
  induction fuel as [|fuel IH]; intros root path term cs w w' r Hrun.
  - discriminate.
  - rewrite scan_registry_key_S in Hrun.
    destruct (reg_open reg root path) as [e|] eqn:Hopen.
    + injection Hrun as <- _. now apply (tidy_log (EvOpenKey root path)).
    + cbv zeta in Hrun.
      assert (Hkey : handles (opened_world root path w)
                     !! fresh (dom (handles w)) = Some (root, path))
        by apply lookup_insert_eq.
      destruct (while_True fuel (value_step _ _ _ _ _) 0 _)
        as [[[w1 res1] rv]|] eqn:Hvals; [|discriminate].
      apply value_loop_tidy with (root := root) in Hvals;
        [|exact Hkey|intros j Hj; lia].
      destruct (while_True fuel (subkey_step _ _ _ _) 0 _)
        as [[[w2 res2] rk]|] eqn:Hkids; [|discriminate].
      apply subkey_loop_tidy with (root := root) in Hkids;
        [|intros q wa wb rr; apply IH
         |eapply tidy_lookup; eassumption|intros j Hj; lia].
      injection Hrun as <- _.
      apply (close_after_open root path). eapply tidy_trans; eassumption.
Qed.

End WithRegistry.
End Tidy.

(* ===================================================================== *)
(** * The scanner returns the expected result *)
(* ===================================================================== *)

Module Refinement.
Import PyStr Winreg Scanner Shape Steps Tidy.

Section WithRegistry.
Context (reg : registry).

(** [returns root path term cs l]: with enough fuel, and from any state
    of the binding, the call returns the list [l]. *)
Definition returns (root : HKEY) (path term : string) (cs : bool)
    (l : list match_record) : Prop :=
  exists n, forall fuel w, n <= fuel ->
    exists w', scan_registry_key reg fuel root path term cs w = Some (w', Ok l).

(** ** From a description to the run *)

Lemma value_loop_runs key root path term cs stop vals :
  forall fuel i w res,
    handles w !! key = Some (root, path) ->
    enumerates (reg_values reg root path) i vals stop ->
    length vals < fuel ->
    exists w' r,
      while_True fuel (value_step reg key path (fold_case cs term) cs) i (w, res)
      = Some ((w', res ++ flat_map (value_matches path term cs) vals), r)
      /\ handles w' = handles w.
Proof.
  induction vals as [|v vals IH]; intros fuel i w res Hkey Hen Hfuel;
    (destruct fuel as [|fuel]; [simpl in Hfuel; lia|]);
    rewrite while_True_S, (value_step_eq _ _ _ _ _ _ _ _ _ Hkey);
    simpl in Hen.
  - rewrite Hen. simpl. rewrite app_nil_r.
    destruct (is_OSError stop); eauto.
  - destruct Hen as [Hi Hen]. rewrite Hi.
    destruct (IH fuel (S i) (log (EvEnumValue root path i) w)
                (res ++ value_matches path term cs v))
      as (w' & r & Hrun & Hh); [exact Hkey|exact Hen|simpl in Hfuel; lia|].
    exists w', r. split; [|exact Hh].
    rewrite Hrun. simpl. now rewrite <- app_assoc.
Qed.

Lemma subkey_loop_runs scan key root path term cs stop kids :
  (forall q w w' r, scan q w = Some (w', r) -> tidy reg w w') ->
  Forall (fun k => forall w, exists w',
            scan (child_path path (fst k)) w
            = Some (w', Ok (expected (child_path path (fst k)) term cs (snd k))))
         kids ->
  forall fuel i w res,
    handles w !! key = Some (root, path) ->
    enumerates (reg_subkey reg root path) i (map fst kids) stop ->
    length kids < fuel ->
    exists w' r,
      while_True fuel (subkey_step reg scan key path) i (w, res)
      = Some ((w', res ++ flat_map
                        (fun k => expected (child_path path (fst k)) term cs (snd k))
                        kids), r).
Proof.
  intros Htidy Hkids.
  induction Hkids as [|k kids Hk Hkids IH]; intros fuel i w res Hkey Hen Hfuel;
    (destruct fuel as [|fuel]; [simpl in Hfuel; lia|]);
    rewrite while_True_S, (subkey_step_eq _ _ _ _ _ _ _ _ Hkey);
    simpl in Hen.
  - rewrite Hen. simpl. rewrite app_nil_r.
    destruct (is_OSError stop); eauto.
  - destruct Hen as [Hi Hen]. rewrite Hi.
    destruct (Hk (log (EvEnumKey root path i) w)) as [w1 Hcall].
    rewrite Hcall.
    assert (Hkey1 : handles w1 !! key = Some (root, path)).
    { eapply tidy_lookup; [eapply Htidy; exact Hcall|exact Hkey]. }
    destruct (IH fuel (S i) w1
                (res ++ expected (child_path path (fst k)) term cs (snd k)))
      as (w' & r & Hrun); [exact Hkey1|exact Hen|simpl in Hfuel; lia|].
    exists w', r. rewrite Hrun. simpl. now rewrite <- app_assoc.
Qed.

(** A common bound on the fuel for the children. *)
Lemma returns_children root path term cs (kids : list (string * shape)) :
  Forall (fun k => returns root (child_path path (fst k)) term cs
                     (expected (child_path path (fst k)) term cs (snd k)))
         kids ->
  exists n, forall fuel, n <= fuel ->
    Forall (fun k => forall w, exists w',
              scan_registry_key reg fuel root (child_path path (fst k)) term cs w
              = Some (w', Ok (expected (child_path path (fst k)) term cs (snd k))))
           kids.
Proof.
  induction 1 as [|k kids [n Hn] _ [m Hm]].
  - exists 0. constructor.
  - exists (Nat.max n m). intros fuel Hfuel. constructor.
    + intros w. apply Hn. lia.
    + apply Hm. lia.
Qed.

(** A key that a shape describes is scanned to the expected result. *)
Lemma scan_expected root term cs sh :
  forall path,
    describes reg root path sh ->
    returns root path term cs (expected path term cs sh).
Proof.
  induction sh as [e | vals vstop kids kstop close IH] using shape_ind';
    intros path Hd; inversion Hd; subst.
  - exists 1. intros [|fuel] w Hfuel; [lia|].
    rewrite scan_registry_key_S.
    match goal with H : reg_open _ _ _ = Some _ |- _ => rewrite H end.
    eauto.
  - match goal with
    | Ho : reg_open _ _ _ = None,
      Hv : enumerates (reg_values _ _ _) _ _ _,
      Hk : enumerates (reg_subkey _ _ _) _ _ _,
      Hc : Forall _ kids |- _ =>
        rename Ho into Hopen; rename Hv into Hvals;
        rename Hk into Hnames; rename Hc into Hkids
    end.
    assert (Hret : Forall
              (fun k => returns root (child_path path (fst k)) term cs
                          (expected (child_path path (fst k)) term cs (snd k)))
              kids).
    { rewrite Forall_forall in IH, Hkids. apply Forall_forall.
      intros k Hin. apply IH; [exact Hin|]. now apply Hkids. }
    destruct (returns_children _ _ _ _ _ Hret) as [n Hn].
    exists (S (Nat.max n (Nat.max (S (length vals)) (S (length kids))))).
    intros [|fuel] w Hfuel; [lia|].
    rewrite scan_registry_key_S, Hopen. cbv zeta.
    destruct (value_loop_runs (fresh (dom (handles w))) root path term cs
                vstop vals fuel 0 (opened_world root path w)
                (own_match path term cs))
      as (w1 & rv & Hrun1 & Hh1);
      [apply lookup_insert_eq|exact Hvals|lia|].
    rewrite Hrun1.
    destruct (subkey_loop_runs
                (fun q => scan_registry_key reg fuel root q term cs)
                (fresh (dom (handles w))) root path term cs kstop kids
                (fun q wa wb rr => scan_tidy reg fuel root q term cs wa wb rr)
                (Hn fuel ltac:(lia)) fuel 0 w1
                (own_match path term cs
                 ++ flat_map (value_matches path term cs) vals))
      as (w2 & rk & Hrun2);
      [rewrite Hh1; apply lookup_insert_eq|exact Hnames|lia|].
    rewrite Hrun2. rewrite <- app_assoc. eauto.
Qed.

(** ** From the run to a description *)

Lemma value_loop_observed key root path term cs fuel :
  forall i w res w' res' r,
    handles w !! key = Some (root, path) ->
    while_True fuel (value_step reg key path (fold_case cs term) cs) i (w, res)
    = Some ((w', res'), r) ->
    exists vals stop,
      enumerates (reg_values reg root path) i vals stop
      /\ res' = res ++ flat_map (value_matches path term cs) vals.
Proof.
  induction fuel as [|fuel IH]; intros i w res w' res' r Hkey Hrun.
  - discriminate.
  - rewrite while_True_S, (value_step_eq _ _ _ _ _ _ _ _ _ Hkey) in Hrun.
    destruct (reg_values reg root path i) as [v|e] eqn:Hi.
    + apply IH in Hrun; [|exact Hkey].
      destruct Hrun as (vals & stop & Hen & ->).
      exists (v :: vals), stop. split; [now split|].
      simpl. now rewrite <- app_assoc.
    + exists [], e. split; [exact Hi|]. rewrite app_nil_r.
      destruct (is_OSError e); now injection Hrun as _ <- _.
Qed.

Lemma subkey_loop_observed scan key root path term cs fuel :
  (forall q w w' r, scan q w = Some (w', r) ->
     tidy reg w w'
     /\ exists sh, describes reg root q sh /\ r = Ok (expected q term cs sh)) ->
  forall i w res w' res' r,
    handles w !! key = Some (root, path) ->
    while_True fuel (subkey_step reg scan key path) i (w, res)
    = Some ((w', res'), r) ->
    exists kids stop,
      enumerates (reg_subkey reg root path) i (map fst kids) stop
      /\ Forall (fun k => describes reg root (child_path path (fst k)) (snd k)) kids
      /\ res' = res ++ flat_map
                         (fun k => expected (child_path path (fst k)) term cs (snd k))
                         kids.
Proof.
  intros Hscan.
  induction fuel as [|fuel IH]; intros i w res w' res' r Hkey Hrun.
  - discriminate.
  - rewrite while_True_S, (subkey_step_eq _ _ _ _ _ _ _ _ Hkey) in Hrun.
    destruct (reg_subkey reg root path i) as [name|e] eqn:Hi.
    + destruct (scan _ _) as [[w1 rc]|] eqn:Hcall; [|discriminate].
      destruct (Hscan _ _ _ _ Hcall) as [Ht (sh & Hd & ->)].
      apply IH in Hrun; [|eapply tidy_lookup; eassumption].
      destruct Hrun as (kids & stop & Hen & Hall & ->).
      exists ((name, sh) :: kids), stop. split; [now split|]. split.
      * constructor; assumption.
      * simpl. now rewrite <- app_assoc.
    + exists [], e. split; [exact Hi|]. split; [constructor|].
      rewrite app_nil_r.
      destruct (is_OSError e); now injection Hrun as _ <- _.
Qed.

(** Whatever a call returns is the expected result of a shape that
    describes the key. *)
Lemma scan_observed fuel :
  forall root path term cs w w' r,
    scan_registry_key reg fuel root path term cs w = Some (w', r) ->
    exists sh, describes reg root path sh /\ r = Ok (expected path term cs sh).
Proof.
  induction fuel as [|fuel IH]; intros root path term cs w w' r Hrun.
  - discriminate.
  - rewrite scan_registry_key_S in Hrun.
    destruct (reg_open reg root path) as [e|] eqn:Hopen.
    + injection Hrun as _ <-. exists (Denied e). split; [|reflexivity].
      now constructor.
    + cbv zeta in Hrun.
      destruct (while_True fuel (value_step _ _ _ _ _) 0 _)
        as [[[w1 res1] rv]|] eqn:Hvals; [|discriminate].
      destruct (while_True fuel (subkey_step _ _ _ _) 0 _)
        as [[[w2 res2] rk]|] eqn:Hkids; [|discriminate].
      injection Hrun as _ <-.
      assert (Hkey : handles (opened_world root path w)
                     !! fresh (dom (handles w)) = Some (root, path))
        by apply lookup_insert_eq.
      assert (Ht1 : tidy reg (opened_world root path w) w1).
      { eapply value_loop_tidy; [exact Hkey| |exact Hvals].
        intros j Hj. lia. }
      apply value_loop_observed with (root := root) in Hvals; [|exact Hkey].
      destruct Hvals as (vals & vstop & Hvals & ->).
      apply subkey_loop_observed with (root := root) (term := term) (cs := cs)
        in Hkids.
      * destruct Hkids as (kids & kstop & Hnames & Hall & ->).
        exists (Opened vals vstop kids kstop (reg_close reg root path)).
        split; [now constructor|]. simpl. now rewrite <- app_assoc.
      * intros q wa wb rr Hcall. split.
        -- eapply scan_tidy; exact Hcall.
        -- eapply IH; exact Hcall.
      * eapply tidy_lookup; eassumption.
Qed.

End WithRegistry.
End Refinement.

(* ===================================================================== *)
(** * Sample registries *)
(* ===================================================================== *)

Module Examples.
Import PyStr Winreg Scanner Shape.

(** The hive of the scenario: key [App] with the value [Default], and its
    subkey [Settings].  The data of [Default] is a parameter. *)
Definition app_registry_with (data : string) : registry := {|
  reg_open := fun _ path =>
    if existsb (String.eqb path) [""; "App"; "App\Settings"]
    then None else Some FileNotFoundError;
  reg_values := fun _ path i =>
    if String.eqb path "App" && Nat.eqb i 0
    then Ok ("Default", PyObject (Ok data), 1)
    else Raise NoMoreItems;
  reg_subkey := fun _ path i =>
    if String.eqb path "" && Nat.eqb i 0 then Ok "App"
    else if String.eqb path "App" && Nat.eqb i 0 then Ok "Settings"
    else Raise NoMoreItems;
  reg_close := fun _ _ => None
|}.

Definition settings_shape : shape :=
  Opened [] NoMoreItems [] NoMoreItems None.
Definition app_shape_with (data : string) : shape :=
  Opened [("Default", PyObject (Ok data), 1)] NoMoreItems
         [("Settings", settings_shape)] NoMoreItems None.
Definition app_root_shape_with (data : string) : shape :=
  Opened [] NoMoreItems [("App", app_shape_with data)] NoMoreItems None.

(** The data of the scenario, read with one backslash. *)
Definition app_registry : registry := app_registry_with "C:\app.dll".
Definition app_shape : shape := app_shape_with "C:\app.dll".
Definition app_root_shape : shape := app_root_shape_with "C:\app.dll".

(** A hive with faults: [Secret] cannot be opened, the data of [Blob]
    cannot be rendered, [Empty] has no data, and the list of the root's
    subkeys breaks off with an error after two names. *)
Definition tools_values : list reg_value :=
  [("Blob", PyObject (Raise OtherException), 3);
   ("Path", PyObject (Ok "C:\tools"), 1);
   ("Empty", PyNone, 0)].

Definition faulty_registry : registry := {|
  reg_open := fun _ path =>
    if String.eqb path "Secret" then Some PermissionError
    else if existsb (String.eqb path) [""; "Tools"] then None
    else Some FileNotFoundError;
  reg_values := fun _ path i =>
    if String.eqb path "Tools"
    then match nth_error tools_values i with
         | Some v => Ok v
         | None => Raise NoMoreItems
         end
    else Raise NoMoreItems;
  reg_subkey := fun _ path i =>
    if String.eqb path ""
    then match i with
         | 0 => Ok "Secret"
         | 1 => Ok "Tools"
         | _ => Raise OSError
         end
    else Raise NoMoreItems;
  reg_close := fun _ _ => None
|}.

Definition tools_shape : shape :=
  Opened tools_values NoMoreItems [] NoMoreItems None.
Definition faulty_root_shape : shape :=
  Opened [] NoMoreItems
         [("Secret", Denied PermissionError); ("Tools", tools_shape)]
         OSError None.

(** The same hive with the key [Secret] taken out. *)
Definition faulty_registry_without_secret : registry := {|
  reg_open := reg_open faulty_registry;
  reg_values := reg_values faulty_registry;
  reg_subkey := fun _ path i =>
    if String.eqb path ""
    then match i with
         | 0 => Ok "Tools"
         | _ => Raise OSError
         end
    else Raise NoMoreItems;
  reg_close := reg_close faulty_registry
|}.

Definition root_shape_without_secret : shape :=
  Opened [] NoMoreItems [("Tools", tools_shape)] OSError None.

Ltac describe :=
  repeat first [ reflexivity | apply describes_opened | apply describes_denied
               | apply Forall_cons | apply Forall_nil | split ].

Lemma app_described_with data root :
  describes (app_registry_with data) root "" (app_root_shape_with data).
Proof. describe. Defined.

Lemma app_described root : describes app_registry root "" app_root_shape.
Proof. apply app_described_with. Defined.

Lemma faulty_described root :
  describes faulty_registry root "" faulty_root_shape.
Proof. describe. Defined.

Lemma tools_described root :
  describes faulty_registry root "Tools" tools_shape.
Proof. describe. Defined.

Lemma without_secret_described root :
  describes faulty_registry_without_secret root "" root_shape_without_secret.
Proof. describe. Defined.

End Examples.

(* ===================================================================== *)
(** * Properties of the scanner *)
(* ===================================================================== *)

Module Properties.
Import PyStr Winreg Scanner Shape Steps Tidy Refinement Examples.

(** ** Helpers on [expected] *)

Lemma children_return reg root path term cs (kids : list (string * shape)) :
  Forall (fun k => describes reg root (child_path path (fst k)) (snd k)) kids ->
  Forall2 (fun k l => returns reg root (child_path path (fst k)) term cs l)
          kids
          (map (fun k => expected (child_path path (fst k)) term cs (snd k)) kids).
Proof.
  induction 1 as [|k kids Hk _ IH]; simpl; constructor.
  - now apply scan_expected.
  - exact IH.
Qed.

Lemma describes_opened_inv reg root path vals vstop kids kstop close :
  describes reg root path (Opened vals vstop kids kstop close) ->
  reg_open reg root path = None
  /\ enumerates (reg_values reg root path) 0 vals vstop
  /\ enumerates (reg_subkey reg root path) 0 (map fst kids) kstop
  /\ Forall (fun k => describes reg root (child_path path (fst k)) (snd k)) kids
  /\ reg_close reg root path = close.
Proof. intros H. inversion H; subst. repeat split; assumption. Qed.

(** C1. For a key that opens and shows the values [vals] and the subkeys
    [kids], both in index order, [scan_registry_key] returns the key's own
    KEY_NAME match (if any), then for each value in index order its
    VALUE_NAME match followed by its VALUE_DATA match, then the complete
    result of the scan of each subkey, in index order. *)
Theorem scan_order reg root path term cs vals vstop kids kstop close :
  describes reg root path (Opened vals vstop kids kstop close) ->
  exists child_results,
    Forall2 (fun k l => returns reg root (child_path path (fst k)) term cs l)
            kids child_results
    /\ returns reg root path term cs
         (own_match path term cs
          ++ flat_map (fun v => let '(name, data, _) := v in
                                name_match path term cs name
                                ++ data_match path term cs name data) vals
          ++ concat child_results).
Proof.
  intros Hd.
  destruct (describes_opened_inv _ _ _ _ _ _ _ _ Hd) as (_ & _ & _ & Hkids & _).
  exists (map (fun k => expected (child_path path (fst k)) term cs (snd k)) kids).
  split; [now apply children_return|].
  rewrite <- flat_map_concat_map.
  exact (scan_expected reg root term cs _ path Hd).
Qed.

Lemma scan_order_witness :
  exists child_results,
    Forall2 (fun k l => returns app_registry HKEY_USERS
                          (child_path "App" (fst k)) ".dll" false l)
            [("Settings", settings_shape)] child_results
    /\ returns app_registry HKEY_USERS "App" ".dll" false
         (own_match "App" ".dll" false
          ++ flat_map (fun v => let '(name, data, _) := v in
                                name_match "App" ".dll" false name
                                ++ data_match "App" ".dll" false name data)
                      [("Default", PyObject (Ok "C:\app.dll"), 1)]
          ++ concat child_results).
Proof.
  apply (scan_order app_registry HKEY_USERS "App" ".dll" false
           [("Default", PyObject (Ok "C:\app.dll"), 1)] NoMoreItems
           [("Settings", settings_shape)] NoMoreItems None).
  describe.
Defined.

(** ** No exception leaves the scanner *)

Lemma scan_roots_never_raises reg fuel roots term cs :
  forall w w' r,
    scan_roots reg fuel roots term cs w = Some (w', r) ->
    exists lines, r = Ok lines.
Proof.
  induction roots as [|[root_name root_key] roots IH]; intros w w' r Hrun;
    simpl in Hrun.
  - injection Hrun as _ <-. eauto.
  - destruct (scan_registry_key reg fuel root_key "" term cs w)
      as [[w1 r1]|] eqn:Hscan; [|discriminate].
    destruct (scan_observed reg _ _ _ _ _ _ _ _ Hscan) as (sh & _ & ->).
    destruct (scan_roots reg fuel roots term cs w1)
      as [[w2 r2]|] eqn:Hrest; [|discriminate].
    destruct (IH _ _ _ Hrest) as [lines ->].
    injection Hrun as _ <-. eauto.
Qed.

Lemma scan_roots_returns reg roots term cs :
  Forall (fun nr => exists sh, describes reg (snd nr) "" sh) roots ->
  exists n, forall fuel w, n <= fuel ->
    exists w' lines, scan_roots reg fuel roots term cs w = Some (w', Ok lines).
Proof.
  induction 1 as [|[root_name root_key] roots [sh Hd] _ [m Hm]].
  - exists 0. intros fuel w _. simpl. eauto.
  - destruct (scan_expected reg root_key term cs sh "" Hd) as [n Hn].
    exists (Nat.max n m). intros fuel w Hfuel. simpl.
    destruct (Hn fuel w) as [w1 ->]; [lia|].
    destruct (Hm fuel w1) as (w2 & lines & ->); [lia|].
    eauto.
Qed.

(** C3. Whatever the binding does -- [OpenKey], [EnumValue], [EnumKey],
    [CloseKey] or [str] raising any exception at any point --
    [scan_registry_key] never raises: a call that finishes returns a list,
    and on a hive that a (finite) shape describes the call does finish.
    The same holds for the loop of [main] over the roots. *)
Theorem scan_never_raises reg term cs :
  (forall fuel root path w w' r,
      scan_registry_key reg fuel root path term cs w = Some (w', r) ->
      exists l, r = Ok l)
  /\ (forall root path sh,
         describes reg root path sh ->
         exists l, returns reg root path term cs l)
  /\ (forall fuel roots w w' r,
         scan_roots reg fuel roots term cs w = Some (w', r) ->
         exists lines, r = Ok lines)
  /\ (forall roots,
         Forall (fun nr => exists sh, describes reg (snd nr) "" sh) roots ->
         exists n, forall fuel w, n <= fuel ->
           exists w' lines,
             scan_roots reg fuel roots term cs w = Some (w', Ok lines)).
Proof.
  split; [|split; [|split]].
  - intros fuel root path w w' r Hrun.
    destruct (scan_observed reg _ _ _ _ _ _ _ _ Hrun) as (sh & _ & ->). eauto.
  - intros root path sh Hd. exists (expected path term cs sh).
    now apply scan_expected.
  - intros fuel roots w w' r. apply scan_roots_never_raises.
  - intros roots. apply scan_roots_returns.
Qed.

Lemma scan_never_raises_witness :
  (exists l, returns faulty_registry HKEY_USERS "" "tool" false l)
  /\ exists n, forall fuel w, n <= fuel ->
       exists w' lines,
         scan_roots faulty_registry fuel ROOT_KEYS "tool" false w
         = Some (w', Ok lines).
Proof.
  destruct (scan_never_raises faulty_registry "tool" false)
    as (_ & Hscan & _ & Hroots).
  split.
  - apply (Hscan HKEY_USERS "" faulty_root_shape). describe.
  - apply Hroots.
    repeat (constructor; [exists faulty_root_shape; describe|]).
    constructor.
Defined.

(** ** Keys that do not open *)

Lemma scan_denied reg root path term cs e :
  reg_open reg root path = Some e ->
  forall fuel w, 1 <= fuel ->
    scan_registry_key reg fuel root path term cs w
    = Some (log (EvOpenKey root path) w, Ok []).
Proof.
  intros Hopen [|fuel] w Hfuel; [lia|].
  rewrite scan_registry_key_S. now rewrite Hopen.
Qed.

Lemma siblings_return reg reg' root parent term cs (kids : list (string * shape)) :
  Forall (fun k => describes reg root (child_path parent (fst k)) (snd k)) kids ->
  Forall (fun k => describes reg' root (child_path parent (fst k)) (snd k)) kids ->
  Forall (fun k => exists l,
            returns reg root (child_path parent (fst k)) term cs l
            /\ returns reg' root (child_path parent (fst k)) term cs l) kids.
Proof.
  rewrite !Forall_forall. intros H H' k Hin.
  exists (expected (child_path parent (fst k)) term cs (snd k)).
  split; apply scan_expected; auto.
Qed.

(** C4. A key whose open fails, with whatever exception, is scanned to
    the empty list.  In its parent, the subkeys next to it are scanned to
    the same results, and the parent to the same result, as in the hive
    [reg'] that is the same except that the failing key is not there. *)
Theorem denied_subtree_is_skipped reg reg' root parent term cs
    vals vstop before name e after kstop close :
  describes reg root parent
    (Opened vals vstop (before ++ (name, Denied e) :: after) kstop close) ->
  describes reg' root parent
    (Opened vals vstop (before ++ after) kstop close) ->
  (forall path e', reg_open reg root path = Some e' ->
     forall fuel w, 1 <= fuel ->
       scan_registry_key reg fuel root path term cs w
       = Some (log (EvOpenKey root path) w, Ok []))
  /\ reg_open reg root (child_path parent name) = Some e
  /\ Forall (fun k => exists l,
               returns reg root (child_path parent (fst k)) term cs l
               /\ returns reg' root (child_path parent (fst k)) term cs l)
            (before ++ after)
  /\ exists l,
       returns reg root parent term cs l /\ returns reg' root parent term cs l.
Proof.
  intros Hd Hd'.
  destruct (describes_opened_inv _ _ _ _ _ _ _ _ Hd) as (_ & _ & _ & Hkids & _).
  destruct (describes_opened_inv _ _ _ _ _ _ _ _ Hd') as (_ & _ & _ & Hkids' & _).
  apply Forall_app in Hkids as [Hbefore Hrest].
  apply Forall_cons in Hrest as [Hden Hafter].
  split; [|split; [|split]].
  - intros path e'. apply scan_denied.
  - simpl in Hden. now inversion Hden.
  - apply siblings_return; [|exact Hkids'].
    apply Forall_app. now split.
  - exists (expected parent term cs
              (Opened vals vstop (before ++ after) kstop close)).
    split; [|now apply scan_expected].
    replace (expected parent term cs
               (Opened vals vstop (before ++ after) kstop close))
      with (expected parent term cs
              (Opened vals vstop (before ++ (name, Denied e) :: after)
                 kstop close)).
    + now apply scan_expected.
    + simpl. now rewrite !flat_map_app.
Qed.

Lemma denied_subtree_is_skipped_witness :
  reg_open faulty_registry HKEY_USERS (child_path "" "Secret")
  = Some PermissionError
  /\ exists l,
       returns faulty_registry HKEY_USERS "" "tool" false l
       /\ returns faulty_registry_without_secret HKEY_USERS "" "tool" false l.
Proof.
  destruct (denied_subtree_is_skipped faulty_registry
              faulty_registry_without_secret
              HKEY_USERS "" "tool" false [] NoMoreItems
              [] "Secret" PermissionError [("Tools", tools_shape)] OSError None)
    as (_ & Hopen & _ & Hsame).
  - describe.
  - describe.
  - split; [exact Hopen | exact Hsame].
Defined.

(** C5. When closes do not fail (the contract of the binding), the open
    handles after a call of [scan_registry_key] are exactly the open
    handles before it: the handle the call opened is released before it
    returns, whatever failed while values and subkeys were enumerated.
    This holds for every call, the recursive ones included. *)
Theorem handles_are_released reg fuel root path term cs w w' r :
  closes_ok reg ->
  scan_registry_key reg fuel root path term cs w = Some (w', r) ->
  handles w' = handles w.
Proof.
  intros Hclose Hrun. exact (tidy_releases _ _ _ (scan_tidy _ _ _ _ _ _ _ _ _ Hrun) Hclose).
Qed.

Lemma handles_are_released_witness :
  exists w' r,
    scan_registry_key faulty_registry 6 HKEY_USERS "" "tool" false initial_world
    = Some (w', r)
    /\ handles w' = handles initial_world.
Proof.
  destruct (scan_registry_key faulty_registry 6 HKEY_USERS "" "tool" false
              initial_world) as [[w' r]|] eqn:Hrun.
  - exists w', r. split; [reflexivity|].
    apply (handles_are_released faulty_registry 6 HKEY_USERS "" "tool" false
             initial_world w' r); [|exact Hrun].
    intros root path. reflexivity.
  - vm_compute in Hrun. discriminate Hrun.
Defined.

(** ** Enumerations that break off *)

Lemma enumerates_stop {A} (f : nat -> result A) l stop :
  forall i, enumerates f i l stop -> f (i + length l) = Raise stop.
Proof.
  induction l as [|x l IH]; intros i H; simpl in *.
  - now rewrite Nat.add_0_r.
  - destruct H as [_ H]. rewrite <- Nat.add_succ_comm. now apply IH.
Qed.

(** C6. If the enumeration of the subkeys of a key raises an error other
    than "no more items" after [kids] were handed out, the scan still
    returns the key's own match, its value matches and the complete
    results of the scans of [kids]; and no call of the scan asks for a
    subkey of that key at an index past the failing one. *)
Theorem child_enumeration_failure reg root path term cs
    vals vstop kids kstop close :
  kstop <> NoMoreItems ->
  describes reg root path (Opened vals vstop kids kstop close) ->
  (exists child_results,
      Forall2 (fun k l => returns reg root (child_path path (fst k)) term cs l)
              kids child_results
      /\ returns reg root path term cs
           (own_match path term cs
            ++ flat_map (value_matches path term cs) vals
            ++ concat child_results))
  /\ (forall fuel w w' r,
         scan_registry_key reg fuel root path term cs w = Some (w', r) ->
         exists evs,
           calls w' = calls w ++ evs
           /\ forall i, In (EvEnumKey root path i) evs -> i <= length kids).
Proof.
  intros _ Hd.
  destruct (describes_opened_inv _ _ _ _ _ _ _ _ Hd) as (_ & _ & Hnames & Hkids & _).
  split.
  - exists (map (fun k => expected (child_path path (fst k)) term cs (snd k)) kids).
    split; [now apply children_return|].
    rewrite <- flat_map_concat_map.
    exact (scan_expected reg root term cs _ path Hd).
  - intros fuel w w' r Hrun.
    destruct (tidy_calls _ _ _ (scan_tidy _ _ _ _ _ _ _ _ _ Hrun))
      as (evs & Hcalls & Horder).
    exists evs. split; [exact Hcalls|].
    intros i Hin. rewrite List.Forall_forall in Horder.
    specialize (Horder _ Hin). simpl in Horder.
    destruct (le_lt_dec i (length kids)) as [Hle|Hlt]; [exact Hle|].
    destruct (Horder _ Hlt) as [name Hname].
    apply enumerates_stop in Hnames. simpl in Hnames.
    rewrite length_map in Hnames. congruence.
Qed.

Lemma child_enumeration_failure_witness :
  exists child_results,
    Forall2 (fun k l => returns faulty_registry HKEY_USERS
                          (child_path "" (fst k)) "tool" false l)
            [("Secret", Denied PermissionError); ("Tools", tools_shape)]
            child_results
    /\ returns faulty_registry HKEY_USERS "" "tool" false
         (own_match "" "tool" false
          ++ flat_map (value_matches "" "tool" false) []
          ++ concat child_results).
Proof.
  apply (child_enumeration_failure faulty_registry HKEY_USERS "" "tool" false
           [] NoMoreItems
           [("Secret", Denied PermissionError); ("Tools", tools_shape)]
           OSError None).
  - discriminate.
  - describe.
Defined.

(** C7. If [str] fails on the data of one value, only the data check of
    that value is dropped: its name check is made and its record kept,
    the values after it are checked in full, and the subkeys are
    scanned. *)
Theorem unrenderable_data_skips_one_check reg root path term cs
    before name e ty after vstop kids kstop close :
  describes reg root path
    (Opened (before ++ (name, PyObject (Raise e), ty) :: after)
            vstop kids kstop close) ->
  exists child_results,
    Forall2 (fun k l => returns reg root (child_path path (fst k)) term cs l)
            kids child_results
    /\ returns reg root path term cs
         (own_match path term cs
          ++ flat_map (value_matches path term cs) before
          ++ name_match path term cs name
          ++ flat_map (value_matches path term cs) after
          ++ concat child_results).
Proof.
  intros Hd.
  destruct (describes_opened_inv _ _ _ _ _ _ _ _ Hd) as (_ & _ & _ & Hkids & _).
  exists (map (fun k => expected (child_path path (fst k)) term cs (snd k)) kids).
  split; [now apply children_return|].
  rewrite <- flat_map_concat_map.
  pose proof (scan_expected reg root term cs _ path Hd) as Hret.
  simpl in Hret. rewrite flat_map_app in Hret. simpl in Hret.
  rewrite app_nil_r in Hret. rewrite <- !app_assoc in Hret.
  exact Hret.
Qed.

Lemma unrenderable_data_skips_one_check_witness :
  exists child_results,
    Forall2 (fun (k : string * shape) l =>
               returns faulty_registry HKEY_USERS
                 (child_path "Tools" (fst k)) "b" false l)
            [] child_results
    /\ returns faulty_registry HKEY_USERS "Tools" "b" false
         (own_match "Tools" "b" false
          ++ flat_map (value_matches "Tools" "b" false) []
          ++ name_match "Tools" "b" false "Blob"
          ++ flat_map (value_matches "Tools" "b" false)
               [("Path", PyObject (Ok "C:\tools"), 1); ("Empty", PyNone, 0)]
          ++ concat child_results).
Proof.
  apply (unrenderable_data_skips_one_check faulty_registry HKEY_USERS "Tools"
           "b" false [] "Blob" OtherException 3
           [("Path", PyObject (Ok "C:\tools"), 1); ("Empty", PyNone, 0)]
           NoMoreItems [] NoMoreItems None).
  describe.
Defined.

(** ** The empty search term *)

Lemma matches_empty_term s cs : matches s "" cs = true.
Proof. unfold matches, fold_case. destruct cs; apply str_in_empty. Qed.

Lemma expected_empty_term cs sh :
  forall path q vals,
    In (q, vals) (scanned path sh) ->
    In (q, KEY_NAME, key_name_of q) (expected path "" cs sh)
    /\ forall name data ty,
         In (name, data, ty) vals ->
         In (q, VALUE_NAME, name) (expected path "" cs sh)
         /\ forall rendered,
              data = PyObject (Ok rendered) ->
              In (q, VALUE_DATA, name +:+ " = " +:+ rendered)
                 (expected path "" cs sh).
Proof.
  induction sh as [e | vals0 vstop kids kstop close IH] using shape_ind';
    intros path q vals Hin; simpl in Hin; [contradiction|].
  destruct Hin as [Heq | Hin].
  - injection Heq as <- <-. simpl. split.
    + apply in_or_app. left. unfold own_match.
      rewrite matches_empty_term. now left.
    + intros name data ty Hv.
      assert (Hsub : forall r, In r (value_matches path "" cs (name, data, ty)) ->
                               In r (expected path "" cs
                                       (Opened vals0 vstop kids kstop close))).
      { intros r Hr. simpl. apply in_or_app. right. apply in_or_app. left.
        apply in_flat_map. eauto. }
      split.
      * apply Hsub. simpl. unfold name_match.
        rewrite matches_empty_term. now left.
      * intros rendered ->. apply Hsub. simpl. apply in_or_app. right.
        rewrite matches_empty_term. now left.
  - apply in_flat_map in Hin as (k & Hk & Hin).
    rewrite List.Forall_forall in IH.
    destruct (IH k Hk _ _ _ Hin) as [Hkey Hvals].
    assert (Hsub : forall r, In r (expected (child_path path (fst k)) "" cs (snd k)) ->
                             In r (expected path "" cs
                                     (Opened vals0 vstop kids kstop close))).
    { intros r Hr. simpl. apply in_or_app. right. apply in_or_app. right.
      apply in_flat_map. eauto. }
    split; [now apply Hsub|].
    intros name data ty Hv. destruct (Hvals name data ty Hv) as [Hn Hd].
    split; [now apply Hsub|]. intros rendered Hr. apply Hsub. now apply Hd.
Qed.

(** C8, as the code has it.  Scanning with the empty search term returns a
    KEY_NAME record for every key the scan opens (the start key, and every
    subkey handed out under an opened key that opens itself), a VALUE_NAME
    record for every value handed out by such a key, and a VALUE_DATA
    record for every such value whose data is present and renders as a
    string. *)
Theorem empty_term_reports_what_is_scanned reg root path cs sh :
  describes reg root path sh ->
  exists l,
    returns reg root path "" cs l
    /\ forall q vals,
         In (q, vals) (scanned path sh) ->
         In (q, KEY_NAME, key_name_of q) l
         /\ forall name data ty,
              In (name, data, ty) vals ->
              In (q, VALUE_NAME, name) l
              /\ forall rendered,
                   data = PyObject (Ok rendered) ->
                   In (q, VALUE_DATA, name +:+ " = " +:+ rendered) l.
Proof.
  intros Hd. exists (expected path "" cs sh). split.
  - now apply scan_expected.
  - apply expected_empty_term.
Qed.

Lemma empty_term_reports_what_is_scanned_witness :
  exists l,
    returns faulty_registry HKEY_USERS "" "" false l
    /\ forall q vals,
         In (q, vals) (scanned "" faulty_root_shape) ->
         In (q, KEY_NAME, key_name_of q) l
         /\ forall name data ty,
              In (name, data, ty) vals ->
              In (q, VALUE_NAME, name) l
              /\ forall rendered,
                   data = PyObject (Ok rendered) ->
                   In (q, VALUE_DATA, name +:+ " = " +:+ rendered) l.
Proof.
  apply (empty_term_reports_what_is_scanned faulty_registry HKEY_USERS ""
           false faulty_root_shape).
  describe.
Defined.

(** C8 as stated fails: the key [Secret] is in the hive (the root hands
    out its name) and the value [Blob] has data, yet the scan with the
    empty term returns no record at all for [Secret] and no VALUE_DATA
    record for [Blob]. *)
Lemma empty_term_misses_denied_key_and_unrenderable_data :
  reg_subkey faulty_registry HKEY_USERS "" 0 = Ok "Secret"
  /\ reg_values faulty_registry HKEY_USERS "Tools" 0
     = Ok ("Blob", PyObject (Raise OtherException), 3)
  /\ exists w' l,
       scan_registry_key faulty_registry 6 HKEY_USERS "" "" false initial_world
       = Some (w', Ok l)
       /\ l = [("", KEY_NAME, "");
               ("Tools", KEY_NAME, "Tools");
               ("Tools", VALUE_NAME, "Blob");
               ("Tools", VALUE_NAME, "Path");
               ("Tools", VALUE_DATA, "Path = C:\tools");
               ("Tools", VALUE_NAME, "Empty")]
       /\ (forall kind payload, ~ In ("Secret", kind, payload) l)
       /\ (forall rendered,
              ~ In ("Tools", VALUE_DATA, "Blob = " +:+ rendered) l).
Proof.
  split; [reflexivity|]. split; [reflexivity|].
  eexists _, _. split; [vm_compute; reflexivity|].
  split; [reflexivity|]. split.
  - intros kind payload Hin. simpl in Hin.
    repeat (destruct Hin as [Hin|Hin]; [discriminate Hin|]). exact Hin.
  - intros rendered Hin. simpl in Hin.
    repeat (destruct Hin as [Hin|Hin]; [discriminate Hin|]). exact Hin.
Qed.

(** ** The scenario *)

(** What the scenario expects, for the data string [data]. *)
Definition scenario_holds (root : HKEY) (data : string) : Prop :=
  returns (app_registry_with data) root "" ".dll" false
    [("App", VALUE_DATA, "Default = " +:+ data)]
  /\ returns (app_registry_with data) root "App\Settings" ".dll" false []
  /\ exists w',
       scan_roots (app_registry_with data) 5 [("R", root)] ".dll" false
         initial_world
       = Some (w', Ok ["[R\App] VALUE_DATA: Default = " +:+ data]).

(** C9. On the hive with the key [App] (value [Default] with the data
    [C:\app.dll]) and its subkey [Settings], the case-insensitive scan for
    [.dll] returns exactly the VALUE_DATA record of [App]; the scan of
    [Settings] returns nothing; and the loop of [main] over a root named
    [R] yields the one line for that record.  This holds whether the data
    is written with one backslash or with two. *)
Theorem app_scenario (root : HKEY) :
  scenario_holds root "C:\app.dll" /\ scenario_holds root "C:\\app.dll".
Proof.
  split; (split; [|split]).
  1,4: exact (scan_expected _ root ".dll" false _ ""
                (app_described_with _ root)).
  1,3: apply (scan_expected _ root ".dll" false settings_shape "App\Settings");
       describe.
  all: destruct root; eexists; vm_compute; reflexivity.
Qed.

(** ** The name of the root key *)

Lemma value_matches_kind path term cs v r :
  In r (value_matches path term cs v) -> snd (fst r) <> KEY_NAME.
Proof.
  destruct v as [[name data] ty]. simpl. intros Hin.
  apply in_app_or in Hin as [Hin | Hin].
  - unfold name_match in Hin. destruct (matches name term cs); [|contradiction].
    destruct Hin as [<- | []]. discriminate.
  - unfold data_match in Hin. destruct data as [|[rendered|e]]; try contradiction.
    destruct (matches rendered term cs); [|contradiction].
    destruct Hin as [<- | []]. discriminate.
Qed.

Lemma expected_root_key_name term cs payload sh :
  forall path,
    In ("", KEY_NAME, payload) (expected path term cs sh) ->
    fold_case cs term = "" /\ payload = "".
Proof.
  induction sh as [e | vals vstop kids kstop close IH] using shape_ind';
    intros path Hin; simpl in Hin; [contradiction|].
  apply in_app_or in Hin as [Hin | Hin]; [|apply in_app_or in Hin as [Hin | Hin]].
  - unfold own_match in Hin.
    destruct (matches (key_name_of path) term cs) eqn:Hm; [|contradiction].
    destruct Hin as [Heq | []]. injection Heq as -> <-.
    split; [|reflexivity].
    unfold matches in Hm. change (key_name_of "") with "" in Hm.
    replace (fold_case cs "") with "" in Hm by (now destruct cs).
    now apply str_in_of_empty.
  - apply in_flat_map in Hin as (v & _ & Hin).
    apply value_matches_kind in Hin. now contradiction Hin.
  - apply in_flat_map in Hin as (k & Hk & Hin).
    rewrite List.Forall_forall in IH. exact (IH k Hk _ Hin).
Qed.

(** C10. A call on the empty path of a root that opens takes the empty
    string as the name of the root key: the result holds the record
    [("", KEY_NAME, "")] exactly when the search term, folded, is empty, and
    holds no KEY_NAME record for the root when the term is not empty. *)
Theorem root_name_is_empty reg root term cs vals vstop kids kstop close :
  describes reg root "" (Opened vals vstop kids kstop close) ->
  exists l,
    returns reg root "" term cs l
    /\ key_name_of "" = ""
    /\ (forall payload,
           In ("", KEY_NAME, payload) l
           <-> (if cs then term else lower term) = "" /\ payload = "")
    /\ (term <> "" -> forall payload, ~ In ("", KEY_NAME, payload) l).
Proof.
  intros Hd.
  exists (expected "" term cs (Opened vals vstop kids kstop close)).
  split; [now apply scan_expected|]. split; [reflexivity|].
  assert (Hiff : forall payload,
             In ("", KEY_NAME, payload)
                (expected "" term cs (Opened vals vstop kids kstop close))
             <-> fold_case cs term = "" /\ payload = "").
  { intros payload. split; [apply expected_root_key_name|].
    intros [Hterm ->]. simpl. apply in_or_app. left.
    unfold own_match, matches. rewrite Hterm.
    change (key_name_of "") with "". rewrite str_in_empty. now left. }
  split; [exact Hiff|].
  intros Hne payload Hin. apply Hiff in Hin as [Hterm _].
  apply Hne. destruct cs; simpl in Hterm; [exact Hterm|].
  now apply lower_empty_iff.
Qed.

Lemma root_name_is_empty_witness :
  exists l,
    returns app_registry HKEY_USERS "" ".dll" false l
    /\ key_name_of "" = ""
    /\ (forall payload,
           In ("", KEY_NAME, payload) l <-> lower ".dll" = "" /\ payload = "")
    /\ (".dll" <> "" -> forall payload, ~ In ("", KEY_NAME, payload) l).
Proof.
  apply (root_name_is_empty app_registry HKEY_USERS ".dll" false
           [] NoMoreItems [("App", app_shape)] NoMoreItems None).
  describe.
Defined.

End Properties.


(* ===================================================================== *)
(** * More on strings, paths and the match test *)
(* ===================================================================== *)

Module Paths.
Import PyStr Winreg Scanner Shape.

Lemma app_assoc_s (a b c : string) : (a +:+ b) +:+ c = a +:+ b +:+ c.
Proof.
  induction a as [|x a IH]; [reflexivity|].
  now rewrite !app_cons, IH.
Qed.

Lemma lower_app (a b : string) : lower (a +:+ b) = lower a +:+ lower b.
Proof.
  induction a as [|x a IH]; [reflexivity|].
  rewrite app_cons. simpl. now rewrite IH, app_cons.
Qed.

Lemma lower_char_idem c : lower_char (lower_char c) = lower_char c.
Proof. destruct c as [[] [] [] [] [] [] [] []]; reflexivity. Qed.

Lemma lower_idem s : lower (lower s) = lower s.
Proof.
  induction s as [|c s IH]; [reflexivity|].
  simpl. now rewrite lower_char_idem, IH.
Qed.

Lemma str_in_trans a b c :
  str_in a b = true -> str_in b c = true -> str_in a c = true.
Proof.
  rewrite !str_in_iff. intros (p1 & q1 & ->) (p2 & q2 & ->).
  exists (p2 +:+ p1), (q1 +:+ q2). now rewrite !app_assoc_s.
Qed.

Lemma str_in_lower t s :
  str_in t s = true -> str_in (lower t) (lower s) = true.
Proof.
  rewrite !str_in_iff. intros (p & q & ->).
  exists (lower p), (lower q). now rewrite !lower_app.
Qed.

(** Without case sensitivity, the case of the term is immaterial. *)
Lemma matches_lower_term s t : matches s (lower t) false = matches s t false.
Proof. unfold matches. simpl. now rewrite lower_idem. Qed.

(** ** Splitting a path *)

Lemma separator_absent sep s :
  str_in (String sep EmptyString) s = false -> split sep s = [s].
Proof.
  induction s as [|c s IH]; [reflexivity|].
  simpl. intros H. apply orb_false_iff in H as [Hc Hs].
  rewrite andb_true_r in Hc. rewrite Ascii.eqb_sym in Hc. rewrite Hc.
  now rewrite (IH Hs).
Qed.

Lemma separator_present sep s :
  str_in (String sep EmptyString) s = true ->
  exists segment rest, split sep s = segment :: rest /\ rest <> [].
Proof.
  induction s as [|c s IH]; [discriminate|].
  simpl. intros H.
  destruct (Ascii.eqb c sep) eqn:Hc.
  - exists EmptyString, (split sep s). split; [reflexivity|].
    apply split_nonempty.
  - rewrite Ascii.eqb_sym, Hc in H. simpl in H.
    destruct (IH H) as (segment & rest & -> & Hne). eauto.
Qed.

Lemma last_item_cons x (l : list string) :
  l <> [] -> last_item (x :: l) = last_item l.
Proof. destruct l; [congruence | reflexivity]. Qed.

Lemma last_item_split_cons sep c s :
  last_item (split sep (String c s))
  = if Ascii.eqb c sep then last_item (split sep s)
    else match split sep s with
         | [_] => String c (last_item (split sep s))
         | _ => last_item (split sep s)
         end.
Proof.
  simpl. destruct (Ascii.eqb c sep).
  - apply last_item_cons, split_nonempty.
  - pose proof (split_nonempty sep s) as Hne.
    destruct (split sep s) as [|seg [|seg' rest]]; [congruence| |]; reflexivity.
Qed.

(** The last segment of [a] + separator + [b] is the last segment of [b]. *)
Lemma last_item_split_app sep a b :
  last_item (split sep (a +:+ String sep b)) = last_item (split sep b).
Proof.
  induction a as [|c a IH].
  - rewrite app_empty_l, last_item_split_cons. now rewrite Ascii.eqb_refl.
  - rewrite app_cons, last_item_split_cons, IH.
    destruct (Ascii.eqb c sep); [reflexivity|].
    destruct (separator_present sep (a +:+ String sep b)) as (seg & rest & -> & Hne).
    + apply str_in_iff. exists a, b. reflexivity.
    + destruct rest; [congruence | reflexivity].
Qed.

(** No segment of a split holds the separator. *)
Lemma split_segments sep s :
  Forall (fun segment => str_in (String sep EmptyString) segment = false)
         (split sep s).
Proof.
  induction s as [|c s IH]; simpl.
  - repeat constructor.
  - destruct (Ascii.eqb c sep) eqn:Hc.
    + constructor; [reflexivity | exact IH].
    + pose proof (split_nonempty sep s) as Hne.
      destruct (split sep s) as [|seg rest]; [congruence|].
      inversion IH as [|? ? Hseg Hrest]; subst.
      constructor; [|exact Hrest].
      simpl. rewrite Ascii.eqb_sym, Hc. simpl. exact Hseg.
Qed.

Lemma last_item_in (l : list string) : l <> [] -> In (last_item l) l.
Proof.
  induction l as [|x l IH]; [congruence|]. intros _.
  destruct l as [|y l]; [now left|].
  right. change (last_item (x :: y :: l)) with (last_item (y :: l)).
  apply IH. discriminate.
Qed.

End Paths.

(* ===================================================================== *)
(** * What the records of a result say *)
(* ===================================================================== *)

Module Records.
Import PyStr Winreg Scanner Shape Steps Tidy Refinement Examples Paths.

(** X1. The name recovered from the path of a subkey (line 46) is the name the
    enumeration handed out (lines 88-91), as long as that name holds no
    backslash. *)
Theorem key_name_of_child path name :
  str_in "\" name = false ->
  key_name_of (child_path path name) = name.
Proof.
  intros Hname. unfold child_path.
  destruct path as [|c path]; simpl truthy; cbv iota.
  - unfold key_name_of. now rewrite Hname.
  - unfold key_name_of.
    replace (str_in "\" (String c path +:+ "\" +:+ name)) with true.
    + change ("\" +:+ name) with (String backslash name).
      rewrite last_item_split_app.
      change "\" with (String backslash EmptyString) in Hname.
      now rewrite (separator_absent _ _ Hname).
    + symmetry. apply str_in_iff. exists (String c path), name. reflexivity.
Qed.

Lemma key_name_of_child_witness :
  key_name_of (child_path "App" "Settings") = "Settings".
Proof. apply (key_name_of_child "App" "Settings"). reflexivity. Defined.

(** X2. The name the scanner reports for a key never holds a backslash. *)
Theorem key_name_has_no_separator path :
  str_in "\" (key_name_of path) = false.
Proof.
  unfold key_name_of. destruct (str_in "\" path) eqn:Hsep; [|exact Hsep].
  pose proof (split_segments backslash path) as Hall.
  rewrite List.Forall_forall in Hall. apply Hall.
  apply last_item_in, split_nonempty.
Qed.

(** ** Which records a result holds *)

(** [justified path term cs sh r]: the record [r] reports a key that the
    scan opened, or a value of such a key, and the reported text matches. *)
Definition justified (path term : string) (cs : bool) (sh : shape)
    (r : match_record) : Prop :=
  let '(q, kind, payload) := r in
  exists vals,
    In (q, vals) (scanned path sh)
    /\ ((kind = KEY_NAME /\ payload = key_name_of q
         /\ matches (key_name_of q) term cs = true)
        \/ exists name data ty,
             In (name, data, ty) vals
             /\ ((kind = VALUE_NAME /\ payload = name
                  /\ matches name term cs = true)
                 \/ exists rendered,
                      data = PyObject (Ok rendered)
                      /\ kind = VALUE_DATA
                      /\ payload = name +:+ " = " +:+ rendered
                      /\ matches rendered term cs = true)).

Lemma value_matches_iff path term cs v q kind payload :
  In (q, kind, payload) (value_matches path term cs v)
  <-> q = path
      /\ let '(name, data, _) := v in
         (kind = VALUE_NAME /\ payload = name /\ matches name term cs = true)
         \/ exists rendered,
              data = PyObject (Ok rendered)
              /\ kind = VALUE_DATA
              /\ payload = name +:+ " = " +:+ rendered
              /\ matches rendered term cs = true.
Proof.
  destruct v as [[name data] ty]. simpl. rewrite in_app_iff.
  unfold name_match, data_match. split.
  - intros [Hin | Hin].
    + destruct (matches name term cs) eqn:Hm; [|contradiction].
      destruct Hin as [Heq | []]. injection Heq as <- <- <-. auto.
    + destruct data as [|[rendered|e]]; try contradiction.
      destruct (matches rendered term cs) eqn:Hm; [|contradiction].
      destruct Hin as [Heq | []]. injection Heq as <- <- <-.
      split; [reflexivity|]. right. eauto.
  - intros [-> [(-> & -> & Hm) | (rendered & -> & -> & -> & Hm)]].
    + left. rewrite Hm. now left.
    + right. rewrite Hm. now left.
Qed.

Lemma expected_in_iff term cs sh :
  forall path r,
    In r (expected path term cs sh) <-> justified path term cs sh r.
Proof.
  induction sh as [e | vals vstop kids kstop close IH] using shape_ind';
    intros path [[q kind] payload]; simpl.
  - split; [contradiction | intros (vals & [] & _)].
  - rewrite !in_app_iff, !in_flat_map. split.
    + intros [Hown | [(v & Hv & Hin) | (k & Hk & Hin)]].
      * unfold own_match in Hown.
        destruct (matches (key_name_of path) term cs) eqn:Hm; [|contradiction].
        destruct Hown as [Heq | []]. injection Heq as <- <- <-.
        exists vals. split; [now left|]. left. auto.
      * apply value_matches_iff in Hin as [-> Hin].
        exists vals. split; [now left|]. right.
        destruct v as [[name data] ty]. exists name, data, ty. auto.
      * rewrite List.Forall_forall in IH.
        apply (IH k Hk) in Hin. destruct Hin as (vals' & Hsc & Hj).
        exists vals'. split; [|exact Hj].
        right. apply in_flat_map. eauto.
    + intros (vals' & [Heq | Hsc] & Hj).
      * injection Heq as <- <-.
        destruct Hj as [(-> & -> & Hm) | (name & data & ty & Hv & Hj)].
        -- left. unfold own_match. rewrite Hm. now left.
        -- right. left. exists (name, data, ty). split; [exact Hv|].
           apply value_matches_iff. auto.
      * apply in_flat_map in Hsc as (k & Hk & Hsc).
        right. right. exists k. split; [exact Hk|].
        rewrite List.Forall_forall in IH. apply (IH k Hk).
        exists vals'. auto.
Qed.

(** X3. A record is in the result exactly when it reports a key the scan
    opened whose name matches, a value of such a key whose name matches,
    or such a value whose rendered data matches: no match is missed and
    nothing is reported that does not match. *)
Theorem result_membership reg root path term cs sh :
  describes reg root path sh ->
  exists l,
    returns reg root path term cs l
    /\ forall r, In r l <-> justified path term cs sh r.
Proof.
  intros Hd. exists (expected path term cs sh).
  split; [now apply scan_expected | apply expected_in_iff].
Qed.

Lemma result_membership_witness :
  exists l,
    returns faulty_registry HKEY_USERS "" "tool" false l
    /\ forall r, In r l <-> justified "" "tool" false faulty_root_shape r.
Proof.
  apply (result_membership faulty_registry HKEY_USERS "" "tool" false
           faulty_root_shape).
  describe.
Defined.

(** ** Every reported text holds the search string *)

Lemma fold_case_app cs a b :
  fold_case cs (a +:+ b) = fold_case cs a +:+ fold_case cs b.
Proof. destruct cs; simpl; [reflexivity | apply lower_app]. Qed.

Lemma matches_in_tail a s t cs :
  matches s t cs = true -> matches (a +:+ s) t cs = true.
Proof.
  unfold matches. rewrite fold_case_app, !str_in_iff.
  intros (pre & post & ->).
  exists (fold_case cs a +:+ pre), post. now rewrite app_assoc_s.
Qed.

(** X4. The [match_value] of every record holds the search string, compared
    the way the search was made; this includes the VALUE_DATA records,
    whose text is [name = data]. *)
Theorem reported_text_matches reg root path term cs sh :
  describes reg root path sh ->
  exists l,
    returns reg root path term cs l
    /\ forall full_path match_type match_value,
         In (full_path, match_type, match_value) l ->
         matches match_value term cs = true.
Proof.
  intros Hd. exists (expected path term cs sh).
  split; [now apply scan_expected|].
  intros q kind payload Hin. apply expected_in_iff in Hin.
  destruct Hin as (vals & _ & [(_ & -> & Hm) | (name & data & ty & _ & Hj)]);
    [exact Hm|].
  destruct Hj as [(_ & -> & Hm) | (rendered & _ & _ & -> & Hm)]; [exact Hm|].
  rewrite <- app_assoc_s. now apply matches_in_tail.
Qed.

Lemma reported_text_matches_witness :
  exists l,
    returns app_registry HKEY_USERS "" ".DLL" false l
    /\ forall full_path match_type match_value,
         In (full_path, match_type, match_value) l ->
         matches match_value ".DLL" false = true.
Proof.
  apply (reported_text_matches app_registry HKEY_USERS "" ".DLL" false
           app_root_shape).
  describe.
Defined.

(** ** Every reported path lies under the start path *)

Lemma child_path_nested path name rest :
  exists rest', child_path (child_path path name) rest = child_path path rest'.
Proof.
  destruct path as [|c path].
  - exists (child_path name rest). reflexivity.
  - exists (name +:+ "\" +:+ rest). unfold child_path at 2 3. simpl truthy.
    cbv iota. unfold child_path. rewrite app_cons. simpl truthy. cbv iota.
    rewrite <- app_cons. now rewrite !app_assoc_s.
Qed.

Lemma scanned_below sh :
  forall path q vals,
    In (q, vals) (scanned path sh) ->
    q = path \/ exists rest, q = child_path path rest.
Proof.
  induction sh as [e | vals0 vstop kids kstop close IH] using shape_ind';
    intros path q vals Hin; simpl in Hin; [contradiction|].
  destruct Hin as [Heq | Hin]; [injection Heq as <- _; now left|].
  apply in_flat_map in Hin as (k & Hk & Hin). right.
  rewrite List.Forall_forall in IH.
  destruct (IH k Hk _ _ _ Hin) as [-> | [rest ->]].
  - now exists (fst k).
  - apply child_path_nested.
Qed.

(** X5. The [full_path] of every record is the start path or a path built
    from it the way subkey paths are built (start path, backslash, rest):
    a scan reports nothing from outside the subtree it was started on. *)
Theorem reported_paths_are_below reg root path term cs sh :
  describes reg root path sh ->
  exists l,
    returns reg root path term cs l
    /\ forall full_path match_type match_value,
         In (full_path, match_type, match_value) l ->
         full_path = path
         \/ exists rest,
              full_path = if truthy path then path +:+ "\" +:+ rest else rest.
Proof.
  intros Hd. exists (expected path term cs sh).
  split; [now apply scan_expected|].
  intros q kind payload Hin. apply expected_in_iff in Hin.
  destruct Hin as (vals & Hsc & _). exact (scanned_below _ _ _ _ Hsc).
Qed.

Lemma reported_paths_are_below_witness :
  exists l,
    returns app_registry HKEY_USERS "App" "" false l
    /\ forall full_path match_type match_value,
         In (full_path, match_type, match_value) l ->
         full_path = "App"
         \/ exists rest,
              full_path = if truthy "App" then "App" +:+ "\" +:+ rest else rest.
Proof.
  apply (reported_paths_are_below app_registry HKEY_USERS "App" "" false
           app_shape).
  describe.
Defined.

(** ** Changing the search *)

Lemma expected_ext term cs term' cs' sh :
  (forall s, matches s term cs = matches s term' cs') ->
  forall path, expected path term cs sh = expected path term' cs' sh.
Proof.
  intros Hm.
  induction sh as [e | vals vstop kids kstop close IH] using shape_ind';
    intros path; simpl; [reflexivity|].
  f_equal; [|f_equal].
  - unfold own_match. now rewrite Hm.
  - apply flat_map_ext. intros [[name data] ty]. simpl.
    unfold name_match, data_match. rewrite Hm.
    destruct data as [|[rendered|e]]; try reflexivity. now rewrite Hm.
  - rewrite List.Forall_forall in IH.
    induction kids as [|k kids IHk]; [reflexivity|]. simpl. f_equal.
    + apply IH. now left.
    + apply IHk. intros k' Hk'. apply IH. now right.
Qed.

(** X7. Without case sensitivity the case of the search string is immaterial:
    the scan for a term and the scan for the lowercased term return the
    same list. *)
Theorem insensitive_scan_ignores_term_case reg root path term sh :
  describes reg root path sh ->
  exists l,
    returns reg root path term false l
    /\ returns reg root path (lower term) false l.
Proof.
  intros Hd. exists (expected path term false sh).
  split; [now apply scan_expected|].
  rewrite (expected_ext term false (lower term) false sh).
  - now apply scan_expected.
  - intros s. symmetry. apply matches_lower_term.
Qed.

Lemma insensitive_scan_ignores_term_case_witness :
  exists l,
    returns app_registry HKEY_USERS "" ".DLL" false l
    /\ returns app_registry HKEY_USERS "" (lower ".DLL") false l.
Proof.
  apply (insensitive_scan_ignores_term_case app_registry HKEY_USERS ""
           ".DLL" app_root_shape).
  describe.
Defined.

(** X9. Which exception ends the enumeration of the values or of the subkeys
    of a key, and whether closing the key fails, makes no difference to
    the result: what was gathered is returned. *)
Theorem result_ignores_stop_and_close reg reg' root path term cs
    vals kids vstop kstop close vstop' kstop' close' :
  describes reg root path (Opened vals vstop kids kstop close) ->
  describes reg' root path (Opened vals vstop' kids kstop' close') ->
  exists l,
    returns reg root path term cs l /\ returns reg' root path term cs l.
Proof.
  intros Hd Hd'.
  exists (expected path term cs (Opened vals vstop kids kstop close)).
  split; [now apply scan_expected|].
  change (expected path term cs (Opened vals vstop kids kstop close))
    with (expected path term cs (Opened vals vstop' kids kstop' close')).
  now apply scan_expected.
Qed.

(** The scenario hive with a root that misbehaves: the enumerations of the
    root end with unexpected errors and closing the root fails. *)
Definition unruly_registry : registry := {|
  reg_open := reg_open app_registry;
  reg_values := fun root path i =>
    if String.eqb path "" then Raise OtherException
    else reg_values app_registry root path i;
  reg_subkey := fun root path i =>
    if String.eqb path "" && negb (Nat.eqb i 0) then Raise OSError
    else reg_subkey app_registry root path i;
  reg_close := fun root path =>
    if String.eqb path "" then Some OSError else None
|}.

Lemma result_ignores_stop_and_close_witness :
  exists l,
    returns app_registry HKEY_USERS "" ".dll" false l
    /\ returns unruly_registry HKEY_USERS "" ".dll" false l.
Proof.
  apply (result_ignores_stop_and_close app_registry unruly_registry
           HKEY_USERS "" ".dll" false [] [("App", app_shape)]
           NoMoreItems NoMoreItems None OtherException OSError (Some OSError)).
  - describe.
  - describe.
Defined.

(** ** How many records *)

(** One record for the name of a key, two for each of its values. *)
Definition budget (kv : string * list reg_value) : nat :=
  1 + 2 * length (snd kv).
Arguments budget : simpl never.

Lemma value_matches_length path term cs v :
  length (value_matches path term cs v) <= 2.
Proof.
  destruct v as [[name data] ty]. simpl. rewrite length_app.
  unfold name_match, data_match.
  destruct (matches name term cs); destruct data as [|[rendered|e]];
    try destruct (matches rendered term cs); simpl; lia.
Qed.

Lemma expected_length term cs sh :
  forall path,
    length (expected path term cs sh)
    <= list_sum (map budget (scanned path sh)).
Proof.
  induction sh as [e | vals vstop kids kstop close IH] using shape_ind';
    intros path; simpl; [lia|].
  rewrite !length_app.
  change (budget (path, vals)) with (1 + 2 * length vals).
  assert (Hown : length (own_match path term cs) <= 1).
  { unfold own_match. destruct (matches _ _ _); simpl; lia. }
  assert (Hvals : length (flat_map (value_matches path term cs) vals)
                  <= 2 * length vals).
  { clear. induction vals as [|v vals IHv]; simpl; [lia|].
    rewrite length_app. pose proof (value_matches_length path term cs v). lia. }
  assert (Hkids :
      length (flat_map (fun k => expected (child_path path (fst k)) term cs (snd k))
                       kids)
      <= list_sum (map budget
                     (flat_map (fun k => scanned (child_path path (fst k)) (snd k))
                               kids))).
  { rewrite List.Forall_forall in IH.
    induction kids as [|k kids IHk]; simpl; [lia|].
    rewrite length_app, map_app, list_sum_app.
    pose proof (IH k ltac:(now left) (child_path path (fst k))).
    assert (forall k', In k' kids ->
              forall path0, length (expected path0 term cs (snd k'))
                            <= list_sum (map budget
                                           (scanned path0 (snd k'))))
      as IH' by (intros k' Hk'; apply IH; now right).
    specialize (IHk IH'). lia. }
  lia.
Qed.

(** X10. A result holds at most one record for each key the scan opened and at
    most two for each value of such a key. *)
Theorem result_size_is_bounded reg root path term cs sh :
  describes reg root path sh ->
  exists l,
    returns reg root path term cs l
    /\ length l
       <= list_sum (map budget (scanned path sh)).
Proof.
  intros Hd. exists (expected path term cs sh).
  split; [now apply scan_expected | apply expected_length].
Qed.

Lemma result_size_is_bounded_witness :
  exists l,
    returns faulty_registry HKEY_USERS "" "" false l
    /\ length l
       <= list_sum (map budget
                      (scanned "" faulty_root_shape)).
Proof.
  apply (result_size_is_bounded faulty_registry HKEY_USERS "" "" false
           faulty_root_shape).
  describe.
Defined.

End Records.

(* ===================================================================== *)
(** * The calls a scan makes *)
(* ===================================================================== *)

Module Trace.
Import PyStr Winreg Scanner Shape Steps Tidy Refinement Examples.

(** The subkey loop of a key: ask for index [i], scan the subkey that was
    handed out, ask for the next index, and so on; the last question is
    the one that raises. *)
Fixpoint interleave (root : HKEY) (path : string) (i : nat)
    (child_traces : list (list event)) : list event :=
  match child_traces with
  | [] => [EvEnumKey root path i]
  | t :: ts => EvEnumKey root path i :: t ++ interleave root path (S i) ts
  end.

(** The calls of the binding that the scan of a key makes, in order. *)
Fixpoint trace (root : HKEY) (path : string) (sh : shape) : list event :=
  match sh with
  | Denied _ => [EvOpenKey root path]
  | Opened vals _ kids _ _ =>
      EvOpenKey root path
      :: map (EvEnumValue root path) (seq 0 (S (length vals)))
      ++ interleave root path 0
           (map (fun k => trace root (child_path path (fst k)) (snd k)) kids)
      ++ [EvCloseKey root path]
  end.

(** [runs_as reg root path term cs l evs]: with enough fuel and from any
    state, the call returns [l] and makes exactly the calls [evs]. *)
Definition runs_as (reg : registry) (root : HKEY) (path term : string)
    (cs : bool) (l : list match_record) (evs : list event) : Prop :=
  exists n, forall fuel w, n <= fuel ->
    exists w',
      scan_registry_key reg fuel root path term cs w = Some (w', Ok l)
      /\ calls w' = calls w ++ evs.

Section WithRegistry.
Context (reg : registry).

Lemma value_loop_calls key root path term cs stop vals :
  forall fuel i w res,
    handles w !! key = Some (root, path) ->
    enumerates (reg_values reg root path) i vals stop ->
    length vals < fuel ->
    exists w' r,
      while_True fuel (value_step reg key path (fold_case cs term) cs) i (w, res)
      = Some ((w', res ++ flat_map (value_matches path term cs) vals), r)
      /\ handles w' = handles w
      /\ calls w' = calls w
                    ++ map (EvEnumValue root path) (seq i (S (length vals))).
Proof.
  induction vals as [|v vals IH]; intros fuel i w res Hkey Hen Hfuel;
    (destruct fuel as [|fuel]; [simpl in Hfuel; lia|]);
    rewrite while_True_S, (value_step_eq _ _ _ _ _ _ _ _ _ Hkey);
    simpl in Hen.
  - rewrite Hen. simpl. rewrite app_nil_r.
    destruct (is_OSError stop); eauto.
  - destruct Hen as [Hi Hen]. rewrite Hi.
    destruct (IH fuel (S i) (log (EvEnumValue root path i) w)
                (res ++ value_matches path term cs v))
      as (w' & r & Hrun & Hh & Hc); [exact Hkey|exact Hen|simpl in Hfuel; lia|].
    exists w', r. split; [|split; [exact Hh|]].
    + rewrite Hrun. simpl. now rewrite <- app_assoc.
    + rewrite Hc. simpl. now rewrite <- app_assoc.
Qed.

Lemma subkey_loop_calls scan key root path term cs stop kids :
  (forall q w w' r, scan q w = Some (w', r) -> tidy reg w w') ->
  Forall (fun k => forall w, exists w',
            scan (child_path path (fst k)) w
            = Some (w', Ok (expected (child_path path (fst k)) term cs (snd k)))
            /\ calls w' = calls w ++ trace root (child_path path (fst k)) (snd k))
         kids ->
  forall fuel i w res,
    handles w !! key = Some (root, path) ->
    enumerates (reg_subkey reg root path) i (map fst kids) stop ->
    length kids < fuel ->
    exists w' r,
      while_True fuel (subkey_step reg scan key path) i (w, res)
      = Some ((w', res ++ flat_map
                        (fun k => expected (child_path path (fst k)) term cs (snd k))
                        kids), r)
      /\ calls w' = calls w
                    ++ interleave root path i
                         (map (fun k => trace root (child_path path (fst k)) (snd k))
                              kids).
Proof.
  intros Htidy Hkids.
  induction Hkids as [|k kids Hk Hkids IH]; intros fuel i w res Hkey Hen Hfuel;
    (destruct fuel as [|fuel]; [simpl in Hfuel; lia|]);
    rewrite while_True_S, (subkey_step_eq _ _ _ _ _ _ _ _ Hkey);
    simpl in Hen.
  - rewrite Hen. simpl. rewrite app_nil_r.
    destruct (is_OSError stop); eauto.
  - destruct Hen as [Hi Hen]. rewrite Hi.
    destruct (Hk (log (EvEnumKey root path i) w)) as (w1 & Hcall & Hc1).
    rewrite Hcall.
    assert (Hkey1 : handles w1 !! key = Some (root, path)).
    { eapply tidy_lookup; [eapply Htidy; exact Hcall|exact Hkey]. }
    destruct (IH fuel (S i) w1
                (res ++ expected (child_path path (fst k)) term cs (snd k)))
      as (w' & r & Hrun & Hc); [exact Hkey1|exact Hen|simpl in Hfuel; lia|].
    exists w', r. split.
    + rewrite Hrun. simpl. now rewrite <- app_assoc.
    + rewrite Hc, Hc1. simpl. now rewrite <- !app_assoc.
Qed.

(** A common bound on the fuel for the children. *)
Lemma runs_as_children root path term cs (kids : list (string * shape)) :
  Forall (fun k => runs_as reg root (child_path path (fst k)) term cs
                     (expected (child_path path (fst k)) term cs (snd k))
                     (trace root (child_path path (fst k)) (snd k)))
         kids ->
  exists n, forall fuel, n <= fuel ->
    Forall (fun k => forall w, exists w',
              scan_registry_key reg fuel root (child_path path (fst k)) term cs w
              = Some (w', Ok (expected (child_path path (fst k)) term cs (snd k)))
              /\ calls w' = calls w
                            ++ trace root (child_path path (fst k)) (snd k))
           kids.
Proof.
  induction 1 as [|k kids [n Hn] _ [m Hm]].
  - exists 0. constructor.
  - exists (Nat.max n m). intros fuel Hfuel. constructor.
    + intros w. apply Hn. lia.
    + apply Hm. lia.
Qed.

Lemma CloseKey_calls key root path w :
  handles w !! key = Some (root, path) ->
  calls (fst (CloseKey reg key w)) = calls w ++ [EvCloseKey root path].
Proof.
  intros Hkey. unfold CloseKey. rewrite Hkey.
  destruct (reg_close reg root path); reflexivity.
Qed.

(** A key that a shape describes is scanned with exactly the calls of
    its trace. *)
Lemma scan_trace root term cs sh :
  forall path,
    describes reg root path sh ->
    runs_as reg root path term cs (expected path term cs sh) (trace root path sh).
Proof.
  induction sh as [e | vals vstop kids kstop close IH] using shape_ind';
    intros path Hd; inversion Hd; subst.
  - exists 1. intros [|fuel] w Hfuel; [lia|].
    rewrite scan_registry_key_S.
    match goal with H : reg_open _ _ _ = Some _ |- _ => rewrite H end.
    eauto.
  - match goal with
    | Ho : reg_open _ _ _ = None,
      Hv : enumerates (reg_values _ _ _) _ _ _,
      Hk : enumerates (reg_subkey _ _ _) _ _ _,
      Hc : Forall _ kids |- _ =>
        rename Ho into Hopen; rename Hv into Hvals;
        rename Hk into Hnames; rename Hc into Hkids
    end.
    assert (Hret : Forall
              (fun k => runs_as reg root (child_path path (fst k)) term cs
                          (expected (child_path path (fst k)) term cs (snd k))
                          (trace root (child_path path (fst k)) (snd k)))
              kids).
    { rewrite Forall_forall in IH, Hkids. apply Forall_forall.
      intros k Hin. apply IH; [exact Hin|]. now apply Hkids. }
    destruct (runs_as_children _ _ _ _ _ Hret) as [n Hn].
    exists (S (Nat.max n (Nat.max (S (length vals)) (S (length kids))))).
    intros [|fuel] w Hfuel; [lia|].
    rewrite scan_registry_key_S, Hopen. cbv zeta.
    set (key := fresh (dom (handles w))).
    assert (Hkey : handles (opened_world root path w) !! key = Some (root, path))
      by apply lookup_insert_eq.
    destruct (value_loop_calls key root path term cs vstop vals fuel 0
                (opened_world root path w) (own_match path term cs))
      as (w1 & rv & Hrun1 & Hh1 & Hc1); [exact Hkey|exact Hvals|lia|].
    rewrite Hrun1.
    assert (Hkey1 : handles w1 !! key = Some (root, path))
      by (now rewrite Hh1).
    destruct (subkey_loop_calls
                (fun q => scan_registry_key reg fuel root q term cs)
                key root path term cs kstop kids
                (fun q wa wb rr => scan_tidy reg fuel root q term cs wa wb rr)
                (Hn fuel ltac:(lia)) fuel 0 w1
                (own_match path term cs
                 ++ flat_map (value_matches path term cs) vals))
      as (w2 & rk & Hrun2 & Hc2); [exact Hkey1|exact Hnames|lia|].
    rewrite Hrun2.
    assert (Hkey2 : handles w2 !! key = Some (root, path)).
    { eapply tidy_lookup; [|exact Hkey1].
      eapply subkey_loop_tidy; [|exact Hkey1| |exact Hrun2].
      - intros q wa wb rr. apply scan_tidy.
      - intros j Hj. lia. }
    eexists. split.
    + simpl expected. now rewrite <- app_assoc.
    + rewrite (CloseKey_calls _ _ _ _ Hkey2), Hc2, Hc1. simpl.
      rewrite <- !app_assoc. reflexivity.
Qed.

End WithRegistry.

(** ** What the trace shows *)

(** X11. The calls of a scan, exactly: [OpenKey] on the key; if it opens,
    [EnumValue] at the indices 0, 1, ... up to and including the first one
    that raises; then [EnumKey] at index 0, the whole scan of the subkey
    handed out, [EnumKey] at index 1, and so on up to and including the
    first index that raises; then one [CloseKey]. *)
Theorem scan_makes_exactly_these_calls reg root path term cs sh :
  describes reg root path sh ->
  exists l,
    runs_as reg root path term cs l
      match sh with
      | Denied _ => [EvOpenKey root path]
      | Opened vals _ kids _ _ =>
          EvOpenKey root path
          :: map (EvEnumValue root path) (seq 0 (S (length vals)))
          ++ interleave root path 0
               (map (fun k => trace root (child_path path (fst k)) (snd k)) kids)
          ++ [EvCloseKey root path]
      end
    /\ Forall (fun k => exists l',
                 runs_as reg root (child_path path (fst k)) term cs l'
                   (trace root (child_path path (fst k)) (snd k)))
              match sh with Denied _ => [] | Opened _ _ kids _ _ => kids end.
Proof.
  intros Hd. exists (expected path term cs sh). split.
  - pose proof (scan_trace reg root term cs sh path Hd) as H.
    destruct sh; exact H.
  - destruct sh as [e | vals vstop kids kstop close]; [constructor|].
    inversion Hd; subst.
    match goal with Hc : Forall _ kids |- _ => rename Hc into Hkids end.
    rewrite List.Forall_forall in Hkids. apply List.Forall_forall.
    intros k Hk. eexists. apply scan_trace. now apply Hkids.
Qed.

Lemma scan_makes_exactly_these_calls_witness :
  exists l,
    runs_as faulty_registry HKEY_USERS "Tools" "tool" false l
      (EvOpenKey HKEY_USERS "Tools"
       :: map (EvEnumValue HKEY_USERS "Tools") (seq 0 (S (length tools_values)))
       ++ interleave HKEY_USERS "Tools" 0
            (map (fun k => trace HKEY_USERS (child_path "Tools" (fst k)) (snd k))
                 [])
       ++ [EvCloseKey HKEY_USERS "Tools"])
    /\ Forall (fun k : string * shape => exists l',
                 runs_as faulty_registry HKEY_USERS
                   (child_path "Tools" (fst k)) "tool" false l'
                   (trace HKEY_USERS (child_path "Tools" (fst k)) (snd k)))
              [].
Proof.
  apply (scan_makes_exactly_these_calls faulty_registry HKEY_USERS "Tools"
           "tool" false tools_shape).
  describe.
Defined.

(** The keys an event list closes, in order. *)
Definition closed_keys (evs : list event) : list string :=
  flat_map (fun ev => match ev with EvCloseKey _ q => [q] | _ => [] end) evs.

(** The hive an event is about. *)
Definition event_hive (ev : event) : HKEY :=
  match ev with
  | EvOpenKey root _ | EvEnumValue root _ _
  | EvEnumKey root _ _ | EvCloseKey root _ => root
  end.

Lemma closed_keys_app a b : closed_keys (a ++ b) = closed_keys a ++ closed_keys b.
Proof. apply flat_map_app. Qed.

Lemma closed_keys_values root path l :
  closed_keys (map (EvEnumValue root path) l) = [].
Proof. induction l as [|i l IH]; [reflexivity | exact IH]. Qed.

Lemma closed_keys_interleave root path traces :
  forall i,
    closed_keys (interleave root path i traces) = flat_map closed_keys traces.
Proof.
  induction traces as [|t ts IH]; intros i; [reflexivity|].
  simpl interleave. change (closed_keys (EvEnumKey root path i :: t ++ interleave root path (S i) ts))
    with (closed_keys (t ++ interleave root path (S i) ts)).
  rewrite closed_keys_app, IH. reflexivity.
Qed.

Lemma trace_opened root path vals vstop kids kstop close :
  trace root path (Opened vals vstop kids kstop close)
  = [EvOpenKey root path]
    ++ map (EvEnumValue root path) (seq 0 (S (length vals)))
    ++ interleave root path 0
         (map (fun k => trace root (child_path path (fst k)) (snd k)) kids)
    ++ [EvCloseKey root path].
Proof. reflexivity. Qed.

Lemma closed_keys_trace root sh :
  forall path,
    Permutation (closed_keys (trace root path sh)) (map fst (scanned path sh)).
Proof.
  induction sh as [e | vals vstop kids kstop close IH] using shape_ind';
    intros path; [reflexivity|].
  rewrite trace_opened.
  rewrite !closed_keys_app, closed_keys_values, closed_keys_interleave.
  change (closed_keys [EvOpenKey root path]) with (@nil string).
  change (closed_keys [EvCloseKey root path]) with [path].
  simpl. rewrite <- Permutation_cons_append. constructor.
  rewrite List.Forall_forall in IH.
  induction kids as [|k kids IHk]; [reflexivity|].
  simpl. rewrite map_app. apply Permutation_app.
  - apply IH. now left.
  - apply IHk. intros k' Hk'. apply IH. now right.
Qed.

Lemma event_hive_interleave root path traces :
  Forall (Forall (fun ev => event_hive ev = root)) traces ->
  forall i, Forall (fun ev => event_hive ev = root) (interleave root path i traces).
Proof.
  induction 1 as [|t ts Ht _ IH]; intros i; simpl.
  - repeat constructor.
  - constructor; [reflexivity|]. apply Forall_app. split; [exact Ht | apply IH].
Qed.

Lemma event_hive_trace root sh :
  forall path, Forall (fun ev => event_hive ev = root) (trace root path sh).
Proof.
  induction sh as [e | vals vstop kids kstop close IH] using shape_ind';
    intros path.
  - repeat constructor.
  - rewrite trace_opened.
    apply Forall_app. split; [repeat constructor|]. apply Forall_app. split.
    + apply List.Forall_forall. intros ev Hin.
      apply in_map_iff in Hin as (i & <- & _). reflexivity.
    + apply Forall_app. split; [|repeat constructor].
      apply event_hive_interleave. apply List.Forall_forall.
      intros t Hin. apply in_map_iff in Hin as (k & <- & Hk).
      rewrite List.Forall_forall in IH. now apply IH.
Qed.

(** X12. [CloseKey] is called on exactly the keys that opened, once for each
    opening, also when closes fail; a key that did not open is never
    closed. *)
Theorem closes_match_opens reg root path term cs sh :
  describes reg root path sh ->
  exists l evs,
    runs_as reg root path term cs l evs
    /\ Permutation (closed_keys evs) (map fst (scanned path sh)).
Proof.
  intros Hd. exists (expected path term cs sh), (trace root path sh).
  split; [now apply scan_trace | apply closed_keys_trace].
Qed.

Lemma closes_match_opens_witness :
  exists l evs,
    runs_as faulty_registry HKEY_USERS "" "tool" false l evs
    /\ Permutation (closed_keys evs) (map fst (scanned "" faulty_root_shape)).
Proof.
  apply (closes_match_opens faulty_registry HKEY_USERS "" "tool" false
           faulty_root_shape).
  describe.
Defined.

(** X13. Every call of a scan is about the hive the scan was given: no other
    hive is opened, enumerated or closed. *)
Theorem scan_stays_in_its_hive reg root path term cs sh :
  describes reg root path sh ->
  exists l evs,
    runs_as reg root path term cs l evs
    /\ Forall (fun ev => event_hive ev = root) evs.
Proof.
  intros Hd. exists (expected path term cs sh), (trace root path sh).
  split; [now apply scan_trace | apply event_hive_trace].
Qed.

Lemma scan_stays_in_its_hive_witness :
  exists l evs,
    runs_as app_registry HKEY_CURRENT_USER "" ".dll" false l evs
    /\ Forall (fun ev => event_hive ev = HKEY_CURRENT_USER) evs.
Proof.
  apply (scan_stays_in_its_hive app_registry HKEY_CURRENT_USER "" ".dll" false
           app_root_shape).
  describe.
Defined.

End Trace.

(* ===================================================================== *)
(** * The loop of [main] *)
(* ===================================================================== *)

Module MainLoop.
Import PyStr Winreg Scanner Shape Steps Tidy Refinement Examples Paths Trace.

(** [roots_to_scan] (line 137): the root picked with [--root], or all of
    [ROOT_KEYS] when none was picked.  [ROOT_KEYS[name]] raises [KeyError]
    for a name that is not a key of the dictionary. *)
Definition roots_to_scan (root : option string)
  : result (list (string * HKEY)) :=
  match root with
  | Some name =>
      if truthy name
      then match find (fun nr => String.eqb (fst nr) name) ROOT_KEYS with
           | Some nr => Ok [(name, snd nr)]
           | None => Raise OtherException
           end
      else Ok ROOT_KEYS
  | None => Ok ROOT_KEYS
  end.

(** The lines [main] gathers in [all_results] (lines 134-146). *)
Definition main_results (reg : registry) (fuel : nat) (root : option string)
    (search_string : string) (case_sensitive : bool) (w : world)
  : option (world * result (list string)) :=
  match roots_to_scan root with
  | Raise e => Some (w, Raise e)
  | Ok roots => scan_roots reg fuel roots search_string case_sensitive w
  end.

(** The lines of one root. *)
Definition lines_of (root_name : string) (results : list match_record)
  : list string :=
  map (result_line root_name) results.

Section WithRegistry.
Context (reg : registry).

Lemma scan_roots_runs term cs (roots : list (string * HKEY))
    (outs : list (list match_record * list event)) :
  Forall2 (fun nr out => runs_as reg (snd nr) "" term cs (fst out) (snd out))
          roots outs ->
  exists n, forall fuel w, n <= fuel ->
    exists w',
      scan_roots reg fuel roots term cs w
      = Some (w', Ok (concat (zip_with (fun nr out => lines_of (fst nr) (fst out))
                                roots outs)))
      /\ calls w' = calls w ++ concat (map snd outs).
Proof.
  induction 1 as [|[root_name root_key] [l evs] roots outs [n Hn] _ [m Hm]].
  - exists 0. intros fuel w _. simpl. rewrite app_nil_r. eauto.
  - exists (Nat.max n m). intros fuel w Hfuel. simpl in Hn |- *.
    destruct (Hn fuel w) as (w1 & -> & Hc1); [lia|].
    destruct (Hm fuel w1) as (w2 & -> & Hc2); [lia|].
    exists w2. split; [reflexivity|].
    rewrite Hc2, Hc1. now rewrite <- app_assoc.
Qed.

Lemma roots_run term cs (roots : list (string * HKEY)) :
  Forall (fun nr => exists sh, describes reg (snd nr) "" sh) roots ->
  exists outs,
    Forall2 (fun nr out => runs_as reg (snd nr) "" term cs (fst out) (snd out))
            roots outs
    /\ Forall2 (fun nr out => Forall (fun ev => event_hive ev = snd nr) (snd out))
               roots outs.
Proof.
  induction 1 as [|nr roots [sh Hd] _ (outs & Hruns & Hhives)].
  - exists []. split; constructor.
  - exists ((expected "" term cs sh, trace (snd nr) "" sh) :: outs).
    split; constructor; try assumption.
    + now apply scan_trace.
    + apply event_hive_trace.
Qed.

End WithRegistry.

Lemma length_concat_lines (roots : list (string * HKEY))
    (outs : list (list match_record * list event)) :
  length roots = length outs ->
  length (concat (zip_with (fun nr out => lines_of (fst nr) (fst out)) roots outs))
  = list_sum (map (fun out => length (fst out)) outs).
Proof.
  revert outs. induction roots as [|nr roots IH]; intros [|out outs] Hlen;
    try discriminate; [reflexivity|].
  simpl. rewrite length_app. unfold lines_of at 1. rewrite length_map.
  f_equal. apply IH. now injection Hlen.
Qed.

(** X14. The loop of [main] composes the scans of the roots: if the scan of
    each root returns its list, [all_results] is the lines of the first
    root's records, then those of the second, and so on, each record giving
    one line; the number of lines is the number of records found; and the
    calls made are those of the scans, one root after the other. *)
Theorem main_loop_concatenates reg (roots : list (string * HKEY))
    (outs : list (list match_record * list event)) term cs :
  Forall2 (fun nr out => runs_as reg (snd nr) "" term cs (fst out) (snd out))
          roots outs ->
  exists n, forall fuel w, n <= fuel ->
    exists w' lines,
      scan_roots reg fuel roots term cs w = Some (w', Ok lines)
      /\ lines = concat (zip_with
                           (fun nr out => map (result_line (fst nr)) (fst out))
                           roots outs)
      /\ length lines = list_sum (map (fun out => length (fst out)) outs)
      /\ calls w' = calls w ++ concat (map snd outs).
Proof.
  intros Hruns.
  destruct (scan_roots_runs reg term cs roots outs Hruns) as [n Hn].
  exists n. intros fuel w Hfuel.
  destruct (Hn fuel w Hfuel) as (w' & Hrun & Hcalls).
  eexists w', _. split; [exact Hrun|]. split; [reflexivity|]. split.
  - apply length_concat_lines. eapply Forall2_length. exact Hruns.
  - exact Hcalls.
Qed.

Lemma main_loop_concatenates_witness :
  exists n, forall fuel w, n <= fuel ->
    exists w' lines,
      scan_roots faulty_registry fuel
        [("HKEY_USERS", HKEY_USERS); ("HKEY_CURRENT_USER", HKEY_CURRENT_USER)]
        "tool" false w = Some (w', Ok lines)
      /\ lines = concat (zip_with
                           (fun nr out => map (result_line (fst nr)) (fst out))
                           [("HKEY_USERS", HKEY_USERS);
                            ("HKEY_CURRENT_USER", HKEY_CURRENT_USER)]
                           [(expected "" "tool" false faulty_root_shape,
                             trace HKEY_USERS "" faulty_root_shape);
                            (expected "" "tool" false faulty_root_shape,
                             trace HKEY_CURRENT_USER "" faulty_root_shape)])
      /\ length lines
         = list_sum (map (fun out : list match_record * list event =>
                            length (fst out))
                      [(expected "" "tool" false faulty_root_shape,
                        trace HKEY_USERS "" faulty_root_shape);
                       (expected "" "tool" false faulty_root_shape,
                        trace HKEY_CURRENT_USER "" faulty_root_shape)])
      /\ calls w' = calls w
                    ++ concat (map snd
                         [(expected "" "tool" false faulty_root_shape,
                           trace HKEY_USERS "" faulty_root_shape);
                          (expected "" "tool" false faulty_root_shape,
                           trace HKEY_CURRENT_USER "" faulty_root_shape)]).
Proof.
  apply (main_loop_concatenates faulty_registry).
  repeat (constructor; [apply scan_trace; describe|]). constructor.
Defined.

(** ** Lines and roots *)

Lemma result_line_prefix root_name r :
  startswith (result_line root_name r) ("[" +:+ root_name +:+ "\") = true.
Proof.
  destruct r as [[full_path match_type] match_value]. unfold result_line.
  apply startswith_iff.
  exists (full_path +:+ "] " +:+ match_type +:+ ": " +:+ match_value).
  now rewrite !app_assoc_s.
Qed.

Lemma lines_name_a_root (roots : list (string * HKEY))
    (outs : list (list match_record * list event)) line :
  In line (concat (zip_with (fun nr out => lines_of (fst nr) (fst out)) roots outs)) ->
  exists root_name,
    In root_name (map fst roots)
    /\ startswith line ("[" +:+ root_name +:+ "\") = true.
Proof.
  revert outs. induction roots as [|nr roots IH]; intros [|out outs] Hin;
    simpl in Hin; try contradiction.
  apply in_app_or in Hin as [Hin | Hin].
  - exists (fst nr). split; [now left|].
    unfold lines_of in Hin. apply in_map_iff in Hin as (r & <- & _).
    apply result_line_prefix.
  - destruct (IH outs Hin) as (root_name & Hname & Hline).
    exists root_name. split; [now right | exact Hline].
Qed.

(** X15. Every line of [all_results] begins with an opening bracket, the name of
    one of the scanned roots and a backslash. *)
Theorem every_line_names_a_root reg (roots : list (string * HKEY)) term cs :
  Forall (fun nr => exists sh, describes reg (snd nr) "" sh) roots ->
  exists n, forall fuel w, n <= fuel ->
    exists w' lines,
      scan_roots reg fuel roots term cs w = Some (w', Ok lines)
      /\ forall line,
           In line lines ->
           exists root_name,
             In root_name (map fst roots)
             /\ startswith line ("[" +:+ root_name +:+ "\") = true.
Proof.
  intros Hroots.
  destruct (roots_run reg term cs roots Hroots) as (outs & Hruns & _).
  destruct (scan_roots_runs reg term cs roots outs Hruns) as [n Hn].
  exists n. intros fuel w Hfuel.
  destruct (Hn fuel w Hfuel) as (w' & Hrun & _).
  eexists w', _. split; [exact Hrun|].
  intros line. apply lines_name_a_root.
Qed.

Lemma every_line_names_a_root_witness :
  exists n, forall fuel w, n <= fuel ->
    exists w' lines,
      scan_roots app_registry fuel ROOT_KEYS ".dll" false w = Some (w', Ok lines)
      /\ forall line,
           In line lines ->
           exists root_name,
             In root_name (map fst ROOT_KEYS)
             /\ startswith line ("[" +:+ root_name +:+ "\") = true.
Proof.
  apply (every_line_names_a_root app_registry ROOT_KEYS ".dll" false).
  repeat (constructor; [exists app_root_shape; describe|]). constructor.
Defined.

(** X16. With [--root NAME], for a name among the choices, [main] scans the one
    hive that [ROOT_KEYS] gives for the name: every call of the binding is
    about that hive, and every line begins with [[NAME\]. *)
Theorem root_option_restricts_the_scan reg name hive term cs sh :
  In (name, hive) ROOT_KEYS ->
  describes reg hive "" sh ->
  exists n, forall fuel w, n <= fuel ->
    exists w' lines evs,
      main_results reg fuel (Some name) term cs w = Some (w', Ok lines)
      /\ calls w' = calls w ++ evs
      /\ Forall (fun ev => event_hive ev = hive) evs
      /\ forall line,
           In line lines -> startswith line ("[" +:+ name +:+ "\") = true.
Proof.
  intros Hname Hd.
  assert (Hroots : roots_to_scan (Some name) = Ok [(name, hive)]).
  { simpl in Hname.
    repeat (destruct Hname as [Heq | Hname];
            [injection Heq as <- <-; reflexivity|]).
    contradiction. }
  destruct (scan_roots_runs reg term cs [(name, hive)]
              [(expected "" term cs sh, trace hive "" sh)]) as [n Hn].
  { constructor; [|constructor]. now apply scan_trace. }
  exists n. intros fuel w Hfuel.
  destruct (Hn fuel w Hfuel) as (w' & Hrun & Hcalls).
  unfold main_results. rewrite Hroots.
  eexists w', _, _. split; [exact Hrun|]. split; [exact Hcalls|]. split.
  - simpl. rewrite app_nil_r. apply event_hive_trace.
  - intros line Hin. simpl in Hin. rewrite app_nil_r in Hin.
    unfold lines_of in Hin. apply in_map_iff in Hin as (r & <- & _).
    apply result_line_prefix.
Qed.

Lemma root_option_restricts_the_scan_witness :
  exists n, forall fuel w, n <= fuel ->
    exists w' lines evs,
      main_results app_registry fuel (Some "HKEY_USERS") ".dll" false w
      = Some (w', Ok lines)
      /\ calls w' = calls w ++ evs
      /\ Forall (fun ev => event_hive ev = HKEY_USERS) evs
      /\ forall line,
           In line lines ->
           startswith line ("[" +:+ "HKEY_USERS" +:+ "\") = true.
Proof.
  apply (root_option_restricts_the_scan app_registry "HKEY_USERS" HKEY_USERS
           ".dll" false app_root_shape).
  - simpl. tauto.
  - describe.
Defined.

(** ** Handles over the whole loop *)

(** X17. When closes do not fail, the loop of [main] ends with the open handles
    it started with, however many roots it scanned and whatever failed
    inside them. *)
Theorem main_loop_releases_handles reg fuel (roots : list (string * HKEY))
    term cs w w' r :
  closes_ok reg ->
  scan_roots reg fuel roots term cs w = Some (w', r) ->
  handles w' = handles w.
Proof.
  intros Hclose. revert w w' r.
  induction roots as [|[root_name root_key] roots IH]; intros w w' r Hrun;
    simpl in Hrun.
  - now injection Hrun as <- _.
  - destruct (scan_registry_key reg fuel root_key "" term cs w)
      as [[w1 r1]|] eqn:Hscan; [|discriminate].
    pose proof (tidy_releases _ _ _ (scan_tidy _ _ _ _ _ _ _ _ _ Hscan) Hclose)
      as Hh1.
    destruct r1 as [results|e]; [|injection Hrun as <- _; exact Hh1].
    destruct (scan_roots reg fuel roots term cs w1)
      as [[w2 r2]|] eqn:Hrest; [|discriminate].
    pose proof (IH _ _ _ Hrest) as Hh2.
    destruct r2; injection Hrun as <- _; congruence.
Qed.

Lemma main_loop_releases_handles_witness :
  exists w' r,
    scan_roots faulty_registry 6 ROOT_KEYS "tool" false initial_world
    = Some (w', r)
    /\ handles w' = handles initial_world.
Proof.
  destruct (scan_roots faulty_registry 6 ROOT_KEYS "tool" false initial_world)
    as [[w' r]|] eqn:Hrun.
  - exists w', r. split; [reflexivity|].
    apply (main_loop_releases_handles faulty_registry 6 ROOT_KEYS "tool" false
             initial_world w' r); [|exact Hrun].
    intros root path. reflexivity.
  - vm_compute in Hrun. discriminate Hrun.
Defined.

End MainLoop.

(* ===================================================================== *)
(** * The scanner over any [str.lower]

    [PyStr.lower] is the ASCII part of Python's [str.lower]: the two agree
    on strings of ASCII characters and differ elsewhere.  What depends on
    the lowercasing itself is therefore stated here for the scanner with
    [lower] left open, so that it holds for Python's [str.lower] as for any
    other function on strings; the scanner of module [Scanner] is this one
    at [PyStr.lower]. *)
(* ===================================================================== *)

Module AnyLower.
Import PyStr Winreg Scanner Shape Steps Tidy Examples Paths.

Section Scan.
Context (lower : string -> string) (reg : registry).

(** One turn of the loop over the values of [key] (lines 55-75). *)
Definition value_step (key : positive) (key_path search_str : string)
    (case_sensitive : bool) (value_index : nat) : M loop_ctl :=
  try_
    (value <- winreg (EnumValue reg key value_index) ;;
     let '(value_name, value_data, value_type) := value in
     let check_value_name :=
       if case_sensitive then value_name else lower value_name in
     when (str_in search_str check_value_name)
          (append (key_path, VALUE_NAME, value_name)) ;;;
     match value_data with
     | PyNone => pass
     | PyObject obj =>
         try_
           (value_str <- py_str obj ;;
            let check_value_str :=
              if case_sensitive then value_str else lower value_str in
            when (str_in search_str check_value_str)
                 (append (key_path, VALUE_DATA,
                          value_name +:+ " = " +:+ value_str)))
           [(fun _ => true, pass)]
     end ;;;
     ret Continue)
    [(is_OSError, ret Break)].

(** [scan_registry_key(root_key, key_path, search_string, case_sensitive)] *)
Fixpoint scan_registry_key (fuel : nat) (root_key : HKEY)
    (key_path search_string : string) (case_sensitive : bool) (w : world)
  : option (world * result (list match_record)) :=
  match fuel with
  | O => None
  | S fuel' =>
      let search_str :=
        if case_sensitive then search_string else lower search_string in
      let body : M unit :=
        try_
          (key <- winreg (OpenKey reg root_key key_path) ;;
           let key_name :=
             if str_in "\" key_path
             then last_item (split backslash key_path)
             else key_path in
           let check_name :=
             if case_sensitive then key_name else lower key_name in
           when (str_in search_str check_name)
                (append (key_path, KEY_NAME, key_name)) ;;;
           try_ (while_True fuel'
                   (value_step key key_path search_str case_sensitive) 0)
                [(is_Exception, pass)] ;;;
           try_ (while_True fuel'
                   (subkey_step reg
                      (fun subkey_path =>
                         scan_registry_key fuel' root_key subkey_path
                           search_string case_sensitive)
                      key key_path) 0)
                [(is_Exception, pass)] ;;;
           winreg (CloseKey reg key))
          [(is_PermissionError, pass);
           (is_FileNotFoundError, pass);
           (is_Exception, pass)] in
      (* results = [] ... return results *)
      match body (w, []) with
      | None => None
      | Some ((w', results), Ok _) => Some (w', Ok results)
      | Some ((w', _), Raise e) => Some (w', Raise e)
      end
  end.

(** ** The specification side, with [lower] open *)

Definition folded (case_sensitive : bool) (s : string) : string :=
  if case_sensitive then s else lower s.

(** [contains sub s]: [sub] is a substring of [s]. *)
Definition contains (sub s : string) : Prop :=
  exists pre post, s = pre +:+ sub +:+ post.

Definition test (candidate term : string) (cs : bool) : bool :=
  str_in (folded cs term) (folded cs candidate).

Definition own_records (path term : string) (cs : bool) : list match_record :=
  if test (key_name_of path) term cs
  then [(path, KEY_NAME, key_name_of path)] else [].

Definition value_records (path term : string) (cs : bool) (v : reg_value)
  : list match_record :=
  let '(name, data, _) := v in
  (if test name term cs then [(path, VALUE_NAME, name)] else [])
  ++ match data with
     | PyObject (Ok rendered) =>
         if test rendered term cs
         then [(path, VALUE_DATA, name +:+ " = " +:+ rendered)] else []
     | PyObject (Raise _) => []
     | PyNone => []
     end.

Fixpoint expected_records (path term : string) (cs : bool) (sh : shape)
  : list match_record :=
  match sh with
  | Denied _ => []
  | Opened vals _ kids _ _ =>
      own_records path term cs
      ++ flat_map (value_records path term cs) vals
      ++ flat_map
           (fun k => expected_records (child_path path (fst k)) term cs (snd k))
           kids
  end.

(** [returns_with root path term cs l]: with enough fuel, and from any
    state of the binding, the call returns the list [l]. *)
Definition returns_with (root : HKEY) (path term : string) (cs : bool)
    (l : list match_record) : Prop :=
  exists n, forall fuel w, n <= fuel ->
    exists w', scan_registry_key fuel root path term cs w = Some (w', Ok l).

End Scan.

(** The scanner of module [Scanner] is this scanner at [PyStr.lower]. *)
Lemma scanner_is_instance reg fuel root path term cs w :
  Scanner.scan_registry_key reg fuel root path term cs w
  = scan_registry_key PyStr.lower reg fuel root path term cs w.
Proof. reflexivity. Qed.

(** ** The scanner, step by step *)

Section Steps.
Context (lower : string -> string) (reg : registry).

Lemma value_step_any key root path term cs i w res :
  handles w !! key = Some (root, path) ->
  value_step lower reg key path (folded lower cs term) cs i (w, res)
  = match reg_values reg root path i with
    | Ok v =>
        Some ((log (EvEnumValue root path i) w,
               res ++ value_records lower path term cs v), Ok Continue)
    | Raise e =>
        Some ((log (EvEnumValue root path i) w, res),
              if is_OSError e then Ok Break else Raise e)
    end.
Proof.
  intros Hkey.
  unfold value_step, try_, bind, winreg, EnumValue. rewrite Hkey.
  destruct (reg_values reg root path i) as [[[name data] ty] | e]; simpl.
  - unfold value_records, test, folded, when, pass, ret, append, try_, bind,
      py_str, raise.
    destruct cs; simpl;
      destruct (str_in _ _); simpl;
      destruct data as [|[rendered|e]]; simpl;
      rewrite ?app_nil_r; try reflexivity;
      destruct (str_in _ _); simpl;
      rewrite ?app_nil_r, <- ?app_assoc; reflexivity.
  - destruct e; reflexivity.
Qed.

Lemma scan_registry_key_any fuel root path term cs w :
  scan_registry_key lower reg (S fuel) root path term cs w
  = match reg_open reg root path with
    | Some e => Some (log (EvOpenKey root path) w, Ok [])
    | None =>
        let key := fresh (dom (handles w)) in
        match while_True fuel
                (value_step lower reg key path (folded lower cs term) cs) 0
                (opened_world root path w, own_records lower path term cs) with
        | None => None
        | Some ((w1, res1), _) =>
            match while_True fuel
                    (subkey_step reg
                       (fun q => scan_registry_key lower reg fuel root q term cs)
                       key path) 0 (w1, res1) with
            | None => None
            | Some ((w2, res2), _) =>
                Some (fst (CloseKey reg key w2), Ok res2)
            end
        end
    end.
Proof.
  cbn [scan_registry_key]. unfold try_ at 1. unfold bind at 1.
  unfold winreg at 1.
  destruct (reg_open reg root path) as [e|] eqn:Hopen.
  - rewrite (OpenKey_denied _ _ _ _ _ Hopen). destruct e; reflexivity.
  - rewrite (OpenKey_opened _ _ _ _ Hopen).
    change (if cs then term else lower term) with (folded lower cs term).
    unfold bind at 1.
    replace (when _ (append (path, KEY_NAME, _)) (opened_world root path w, []))
      with (Some ((opened_world root path w, own_records lower path term cs),
                  Ok tt)).
    2:{ unfold own_records, test, key_name_of, folded, when, pass, ret.
        destruct cs; destruct (str_in _ _); reflexivity. }
    unfold bind at 1. unfold try_ at 1.
    destruct (while_True fuel (value_step _ _ _ _ _ _) 0 _)
      as [[[w1 res1] [[]|e]]|]; [| |reflexivity].
    + simpl dispatch. unfold bind at 1. unfold try_ at 1.
      destruct (while_True fuel (subkey_step _ _ _ _) 0 _)
        as [[[w2 res2] [[]|e]]|]; [| |reflexivity].
      * unfold winreg. destruct (CloseKey reg _ w2) as [w3 [[]|e]]; simpl.
        -- reflexivity.
        -- destruct e; reflexivity.
      * simpl. unfold pass, ret, winreg.
        destruct (CloseKey reg _ w2) as [w3 [[]|e']]; simpl.
        -- reflexivity.
        -- destruct e'; reflexivity.
    + simpl. unfold pass, ret. unfold bind at 1. unfold try_ at 1.
      destruct (while_True fuel (subkey_step _ _ _ _) 0 _)
        as [[[w2 res2] [[]|e']]|]; [| |reflexivity].
      * unfold winreg. destruct (CloseKey reg _ w2) as [w3 [[]|e']]; simpl.
        -- reflexivity.
        -- destruct e'; reflexivity.
      * simpl. unfold pass, ret, winreg.
        destruct (CloseKey reg _ w2) as [w3 [[]|e'']]; simpl.
        -- reflexivity.
        -- destruct e''; reflexivity.
Qed.

(** ** Handles are kept *)

Lemma value_loop_tidy_any key root path term cs fuel :
  forall i w res w' res' r,
    handles w !! key = Some (root, path) ->
    (forall j, j < i -> exists v, reg_values reg root path j = Ok v) ->
    while_True fuel (value_step lower reg key path (folded lower cs term) cs)
      i (w, res)
    = Some ((w', res'), r) ->
    tidy reg w w'.
Proof.
  induction fuel as [|fuel IH]; intros i w res w' res' r Hkey Hlow Hrun.
  - discriminate.
  - rewrite while_True_S, (value_step_any _ _ _ _ _ _ _ _ Hkey) in Hrun.
    assert (Hstep : tidy reg w (log (EvEnumValue root path i) w))
      by now apply tidy_log.
    destruct (reg_values reg root path i) as [v|e] eqn:Hi.
    + eapply tidy_trans; [exact Hstep|].
      eapply (IH (S i)); [| |exact Hrun]; [exact Hkey|].
      intros j Hj. destruct (decide (j = i)) as [->|Hne]; [eauto|].
      apply Hlow. lia.
    + destruct (is_OSError e); injection Hrun as <- _ _; exact Hstep.
Qed.

Lemma scan_tidy_any fuel :
  forall root path term cs w w' r,
    scan_registry_key lower reg fuel root path term cs w = Some (w', r) ->
    tidy reg w w'.
Proof.
  induction fuel as [|fuel IH]; intros root path term cs w w' r Hrun.
  - discriminate.
  - rewrite scan_registry_key_any in Hrun.
    destruct (reg_open reg root path) as [e|] eqn:Hopen.
    + injection Hrun as <- _. now apply (tidy_log reg (EvOpenKey root path)).
    + cbv zeta in Hrun.
      assert (Hkey : handles (opened_world root path w)
                     !! fresh (dom (handles w)) = Some (root, path))
        by apply lookup_insert_eq.
      destruct (while_True fuel (value_step _ _ _ _ _ _) 0 _)
        as [[[w1 res1] rv]|] eqn:Hvals; [|discriminate].
      apply value_loop_tidy_any with (root := root) in Hvals;
        [|exact Hkey|intros j Hj; lia].
      destruct (while_True fuel (subkey_step _ _ _ _) 0 _)
        as [[[w2 res2] rk]|] eqn:Hkids; [|discriminate].
      apply subkey_loop_tidy with (root := root) in Hkids;
        [|intros q wa wb rr; apply IH
         |eapply tidy_lookup; eassumption|intros j Hj; lia].
      injection Hrun as <- _.
      apply (close_after_open reg root path). eapply tidy_trans; eassumption.
Qed.

(** ** From a description to the run *)

Lemma value_loop_runs_any key root path term cs stop vals :
  forall fuel i w res,
    handles w !! key = Some (root, path) ->
    enumerates (reg_values reg root path) i vals stop ->
    length vals < fuel ->
    exists w' r,
      while_True fuel (value_step lower reg key path (folded lower cs term) cs)
        i (w, res)
      = Some ((w', res ++ flat_map (value_records lower path term cs) vals), r)
      /\ handles w' = handles w.
Proof.
  induction vals as [|v vals IH]; intros fuel i w res Hkey Hen Hfuel;
    (destruct fuel as [|fuel]; [simpl in Hfuel; lia|]);
    rewrite while_True_S, (value_step_any _ _ _ _ _ _ _ _ Hkey);
    simpl in Hen.
  - rewrite Hen. simpl. rewrite app_nil_r.
    destruct (is_OSError stop); eauto.
  - destruct Hen as [Hi Hen]. rewrite Hi.
    destruct (IH fuel (S i) (log (EvEnumValue root path i) w)
                (res ++ value_records lower path term cs v))
      as (w' & r & Hrun & Hh); [exact Hkey|exact Hen|simpl in Hfuel; lia|].
    exists w', r. split; [|exact Hh].
    rewrite Hrun. simpl. now rewrite <- app_assoc.
Qed.

Lemma subkey_loop_runs_any scan key root path term cs stop kids :
  (forall q w w' r, scan q w = Some (w', r) -> tidy reg w w') ->
  Forall (fun k => forall w, exists w',
            scan (child_path path (fst k)) w
            = Some (w', Ok (expected_records lower (child_path path (fst k))
                              term cs (snd k))))
         kids ->
  forall fuel i w res,
    handles w !! key = Some (root, path) ->
    enumerates (reg_subkey reg root path) i (map fst kids) stop ->
    length kids < fuel ->
    exists w' r,
      while_True fuel (subkey_step reg scan key path) i (w, res)
      = Some ((w', res ++ flat_map
                        (fun k => expected_records lower (child_path path (fst k))
                                    term cs (snd k))
                        kids), r).
Proof.
  intros Htidy Hkids.
  induction Hkids as [|k kids Hk Hkids IH]; intros fuel i w res Hkey Hen Hfuel;
    (destruct fuel as [|fuel]; [simpl in Hfuel; lia|]);
    rewrite while_True_S, (subkey_step_eq _ _ _ _ _ _ _ _ Hkey);
    simpl in Hen.
  - rewrite Hen. simpl. rewrite app_nil_r.
    destruct (is_OSError stop); eauto.
  - destruct Hen as [Hi Hen]. rewrite Hi.
    destruct (Hk (log (EvEnumKey root path i) w)) as [w1 Hcall].
    rewrite Hcall.
    assert (Hkey1 : handles w1 !! key = Some (root, path)).
    { eapply tidy_lookup; [eapply Htidy; exact Hcall|exact Hkey]. }
    destruct (IH fuel (S i) w1
                (res ++ expected_records lower (child_path path (fst k))
                          term cs (snd k)))
      as (w' & r & Hrun); [exact Hkey1|exact Hen|simpl in Hfuel; lia|].
    exists w', r. rewrite Hrun. simpl. now rewrite <- app_assoc.
Qed.

Lemma returns_children_any root path term cs (kids : list (string * shape)) :
  Forall (fun k => returns_with lower reg root (child_path path (fst k)) term cs
                     (expected_records lower (child_path path (fst k))
                        term cs (snd k)))
         kids ->
  exists n, forall fuel, n <= fuel ->
    Forall (fun k => forall w, exists w',
              scan_registry_key lower reg fuel root (child_path path (fst k))
                term cs w
              = Some (w', Ok (expected_records lower (child_path path (fst k))
                                term cs (snd k))))
           kids.
Proof.
  induction 1 as [|k kids [n Hn] _ [m Hm]].
  - exists 0. constructor.
  - exists (Nat.max n m). intros fuel Hfuel. constructor.
    + intros w. apply Hn. lia.
    + apply Hm. lia.
Qed.

(** Whatever [lower] is, a key that a shape describes is scanned to the
    expected records. *)
Lemma scan_expected_any root term cs sh :
  forall path,
    describes reg root path sh ->
    returns_with lower reg root path term cs
      (expected_records lower path term cs sh).
Proof.
  induction sh as [e | vals vstop kids kstop close IH] using shape_ind';
    intros path Hd; inversion Hd; subst.
  - exists 1. intros [|fuel] w Hfuel; [lia|].
    rewrite scan_registry_key_any.
    match goal with H : reg_open _ _ _ = Some _ |- _ => rewrite H end.
    eauto.
  - match goal with
    | Ho : reg_open _ _ _ = None,
      Hv : enumerates (reg_values _ _ _) _ _ _,
      Hk : enumerates (reg_subkey _ _ _) _ _ _,
      Hc : Forall _ kids |- _ =>
        rename Ho into Hopen; rename Hv into Hvals;
        rename Hk into Hnames; rename Hc into Hkids
    end.
    assert (Hret : Forall
              (fun k => returns_with lower reg root (child_path path (fst k))
                          term cs
                          (expected_records lower (child_path path (fst k))
                             term cs (snd k)))
              kids).
    { rewrite Forall_forall in IH, Hkids. apply Forall_forall.
      intros k Hin. apply IH; [exact Hin|]. now apply Hkids. }
    destruct (returns_children_any _ _ _ _ _ Hret) as [n Hn].
    exists (S (Nat.max n (Nat.max (S (length vals)) (S (length kids))))).
    intros [|fuel] w Hfuel; [lia|].
    rewrite scan_registry_key_any, Hopen. cbv zeta.
    destruct (value_loop_runs_any (fresh (dom (handles w))) root path term cs
                vstop vals fuel 0 (opened_world root path w)
                (own_records lower path term cs))
      as (w1 & rv & Hrun1 & Hh1);
      [apply lookup_insert_eq|exact Hvals|lia|].
    rewrite Hrun1.
    destruct (subkey_loop_runs_any
                (fun q => scan_registry_key lower reg fuel root q term cs)
                (fresh (dom (handles w))) root path term cs kstop kids
                (fun q wa wb rr => scan_tidy_any fuel root q term cs wa wb rr)
                (Hn fuel ltac:(lia)) fuel 0 w1
                (own_records lower path term cs
                 ++ flat_map (value_records lower path term cs) vals))
      as (w2 & rk & Hrun2);
      [rewrite Hh1; apply lookup_insert_eq|exact Hnames|lia|].
    rewrite Hrun2. rewrite <- app_assoc. eauto.
Qed.

End Steps.

(** ** Which records a result holds, whatever [lower] is *)

Section Membership.
Context (lower : string -> string).

Lemma test_iff candidate term cs :
  test lower candidate term cs = true
  <-> contains (folded lower cs term) (folded lower cs candidate).
Proof. unfold test, contains. apply str_in_iff. Qed.

(** [reported path term cs sh r]: the record [r] is the KEY_NAME record of
    a key the scan opens whose name contains the term, or the VALUE_NAME
    record of a value of such a key whose name contains the term, or the
    VALUE_DATA record of such a value whose rendered data contains the
    term; both sides of each comparison folded. *)
Definition reported (path term : string) (cs : bool) (sh : shape)
    (r : match_record) : Prop :=
  let '(q, kind, payload) := r in
  exists vals,
    In (q, vals) (scanned path sh)
    /\ ((kind = KEY_NAME /\ payload = key_name_of q
         /\ contains (folded lower cs term) (folded lower cs (key_name_of q)))
        \/ exists name data ty,
             In (name, data, ty) vals
             /\ ((kind = VALUE_NAME /\ payload = name
                  /\ contains (folded lower cs term) (folded lower cs name))
                 \/ exists rendered,
                      data = PyObject (Ok rendered)
                      /\ kind = VALUE_DATA
                      /\ payload = name +:+ " = " +:+ rendered
                      /\ contains (folded lower cs term)
                           (folded lower cs rendered))).

Lemma value_records_iff path term cs v q kind payload :
  In (q, kind, payload) (value_records lower path term cs v)
  <-> q = path
      /\ let '(name, data, _) := v in
         (kind = VALUE_NAME /\ payload = name
          /\ test lower name term cs = true)
         \/ exists rendered,
              data = PyObject (Ok rendered)
              /\ kind = VALUE_DATA
              /\ payload = name +:+ " = " +:+ rendered
              /\ test lower rendered term cs = true.
Proof.
  destruct v as [[name data] ty]. simpl. rewrite in_app_iff. split.
  - intros [Hin | Hin].
    + destruct (test lower name term cs) eqn:Hm; [|contradiction].
      destruct Hin as [Heq | []]. injection Heq as <- <- <-. auto.
    + destruct data as [|[rendered|e]]; try contradiction.
      destruct (test lower rendered term cs) eqn:Hm; [|contradiction].
      destruct Hin as [Heq | []]. injection Heq as <- <- <-.
      split; [reflexivity|]. right. eauto.
  - intros [-> [(-> & -> & Hm) | (rendered & -> & -> & -> & Hm)]].
    + left. rewrite Hm. now left.
    + right. rewrite Hm. now left.
Qed.

Lemma expected_records_iff term cs sh :
  forall path r,
    In r (expected_records lower path term cs sh) <-> reported path term cs sh r.
Proof.
  induction sh as [e | vals vstop kids kstop close IH] using shape_ind';
    intros path [[q kind] payload]; simpl.
  - split; [contradiction | intros (vals & [] & _)].
  - rewrite !in_app_iff, !in_flat_map. split.
    + intros [Hown | [(v & Hv & Hin) | (k & Hk & Hin)]].
      * unfold own_records in Hown.
        destruct (test lower (key_name_of path) term cs) eqn:Hm;
          [|contradiction].
        destruct Hown as [Heq | []]. injection Heq as <- <- <-.
        exists vals. split; [now left|]. left.
        apply test_iff in Hm. auto.
      * apply value_records_iff in Hin as [-> Hin].
        exists vals. split; [now left|]. right.
        destruct v as [[name data] ty]. exists name, data, ty.
        split; [exact Hv|].
        destruct Hin as [(-> & -> & Hm) | (rendered & -> & -> & -> & Hm)];
          apply test_iff in Hm; [left; auto | right; eauto].
      * rewrite List.Forall_forall in IH.
        apply (IH k Hk) in Hin. destruct Hin as (vals' & Hsc & Hj).
        exists vals'. split; [|exact Hj].
        right. apply in_flat_map. eauto.
    + intros (vals' & [Heq | Hsc] & Hj).
      * injection Heq as <- <-.
        destruct Hj as [(-> & -> & Hm) | (name & data & ty & Hv & Hj)].
        -- left. unfold own_records. apply test_iff in Hm. rewrite Hm.
           now left.
        -- right. left. exists (name, data, ty). split; [exact Hv|].
           apply value_records_iff. split; [reflexivity|].
           destruct Hj as [(-> & -> & Hm) | (rendered & -> & -> & -> & Hm)];
             apply test_iff in Hm; [left; auto | right; eauto].
      * apply in_flat_map in Hsc as (k & Hk & Hsc).
        right. right. exists k. split; [exact Hk|].
        rewrite List.Forall_forall in IH. apply (IH k Hk).
        exists vals'. auto.
Qed.

Lemma contains_refl s : contains s s.
Proof. exists EmptyString, EmptyString. simpl. now rewrite app_empty_r. Qed.

Lemma contains_empty s : contains EmptyString s.
Proof. now exists EmptyString, s. Qed.

End Membership.

(** C2. Whatever [str.lower] does, the scan of a key returns the KEY_NAME
    record of a key it opens, the VALUE_NAME record of a value, or the
    VALUE_DATA record of a value's rendered data exactly when the search
    term (lowercased unless the search is case sensitive) is a substring of
    the key name, value name or rendered data (lowercased likewise).  In
    particular the empty term matches every one of them (given that
    lowercasing the empty string gives the empty string), and a term equal
    to the candidate matches it. *)
Theorem match_test_is_containment (lower : string -> string) reg root path
    term cs sh :
  describes reg root path sh ->
  exists l,
    returns_with lower reg root path term cs l
    /\ (forall q kind payload,
           In (q, kind, payload) l
           <-> exists vals,
                 In (q, vals) (scanned path sh)
                 /\ ((kind = KEY_NAME /\ payload = key_name_of q
                      /\ contains (if cs then term else lower term)
                           (if cs then key_name_of q else lower (key_name_of q)))
                     \/ exists name data ty,
                          In (name, data, ty) vals
                          /\ ((kind = VALUE_NAME /\ payload = name
                               /\ contains (if cs then term else lower term)
                                    (if cs then name else lower name))
                              \/ exists rendered,
                                   data = PyObject (Ok rendered)
                                   /\ kind = VALUE_DATA
                                   /\ payload = name +:+ " = " +:+ rendered
                                   /\ contains (if cs then term else lower term)
                                        (if cs then rendered
                                         else lower rendered))))
    /\ (forall q vals,
           In (q, vals) (scanned path sh) ->
           ((term = "" /\ lower "" = "") \/ term = key_name_of q ->
            In (q, KEY_NAME, key_name_of q) l)
           /\ forall name data ty,
                In (name, data, ty) vals ->
                ((term = "" /\ lower "" = "") \/ term = name ->
                 In (q, VALUE_NAME, name) l)
                /\ forall rendered,
                     data = PyObject (Ok rendered) ->
                     (term = "" /\ lower "" = "") \/ term = rendered ->
                     In (q, VALUE_DATA, name +:+ " = " +:+ rendered) l).
Proof.
  intros Hd. exists (expected_records lower path term cs sh).
  split; [now apply scan_expected_any|].
  assert (Hiff : forall r,
             In r (expected_records lower path term cs sh)
             <-> reported lower path term cs sh r)
    by apply expected_records_iff.
  split; [intros q kind payload; apply (Hiff (q, kind, payload))|].
  assert (Hpass : forall candidate,
             (term = "" /\ lower "" = "") \/ term = candidate ->
             contains (folded lower cs term) (folded lower cs candidate)).
  { intros candidate [[-> Hempty] | ->]; [|apply contains_refl].
    replace (folded lower cs "") with "" by (destruct cs; simpl; congruence).
    apply contains_empty. }
  intros q vals Hsc. split.
  - intros Hterm. apply (Hiff (q, KEY_NAME, key_name_of q)).
    exists vals. split; [exact Hsc|]. left. auto.
  - intros name data ty Hv. split.
    + intros Hterm. apply (Hiff (q, VALUE_NAME, name)).
      exists vals. split; [exact Hsc|]. right. exists name, data, ty.
      split; [exact Hv|]. left. auto.
    + intros rendered -> Hterm.
      apply (Hiff (q, VALUE_DATA, name +:+ " = " +:+ rendered)).
      exists vals. split; [exact Hsc|]. right.
      exists name, (PyObject (Ok rendered)), ty.
      split; [exact Hv|]. right. exists rendered. auto.
Qed.

Lemma match_test_is_containment_witness :
  exists l,
    returns_with PyStr.lower app_registry HKEY_USERS "" ".DLL" false l
    /\ (forall q kind payload,
           In (q, kind, payload) l
           <-> exists vals,
                 In (q, vals) (scanned "" app_root_shape)
                 /\ ((kind = KEY_NAME /\ payload = key_name_of q
                      /\ contains (PyStr.lower ".DLL")
                           (PyStr.lower (key_name_of q)))
                     \/ exists name data ty,
                          In (name, data, ty) vals
                          /\ ((kind = VALUE_NAME /\ payload = name
                               /\ contains (PyStr.lower ".DLL")
                                    (PyStr.lower name))
                              \/ exists rendered,
                                   data = PyObject (Ok rendered)
                                   /\ kind = VALUE_DATA
                                   /\ payload = name +:+ " = " +:+ rendered
                                   /\ contains (PyStr.lower ".DLL")
                                        (PyStr.lower rendered))))
    /\ (forall q vals,
           In (q, vals) (scanned "" app_root_shape) ->
           ((".DLL" = "" /\ PyStr.lower "" = "") \/ ".DLL" = key_name_of q ->
            In (q, KEY_NAME, key_name_of q) l)
           /\ forall name data ty,
                In (name, data, ty) vals ->
                ((".DLL" = "" /\ PyStr.lower "" = "") \/ ".DLL" = name ->
                 In (q, VALUE_NAME, name) l)
                /\ forall rendered,
                     data = PyObject (Ok rendered) ->
                     (".DLL" = "" /\ PyStr.lower "" = "") \/ ".DLL" = rendered ->
                     In (q, VALUE_DATA, name +:+ " = " +:+ rendered) l).
Proof.
  apply (match_test_is_containment PyStr.lower app_registry HKEY_USERS ""
           ".DLL" false app_root_shape).
  describe.
Defined.

(** The results of the scanner of module [Scanner] are those of this
    scanner at [PyStr.lower]. *)
Lemma returns_is_instance reg root path term cs l :
  Refinement.returns reg root path term cs l
  <-> returns_with PyStr.lower reg root path term cs l.
Proof. reflexivity. Qed.

(** ** Strings of ASCII characters *)

Definition ascii_char (c : ascii) : bool := (nat_of_ascii c <? 128)%nat.

Fixpoint is_ascii (s : string) : bool :=
  match s with
  | EmptyString => true
  | String c s' => ascii_char c && is_ascii s'
  end.

(** On strings of ASCII characters [str.lower] maps [A-Z] to [a-z] and
    leaves the rest alone, which is what [PyStr.lower] does. *)
Definition lowers_ascii (lower : string -> string) : Prop :=
  forall s, is_ascii s = true -> lower s = PyStr.lower s.

Definition ascii_value (v : reg_value) : bool :=
  let '(name, data, _) := v in
  is_ascii name
  && match data with
     | PyObject (Ok rendered) => is_ascii rendered
     | _ => true
     end.

(** Every subkey name, value name and rendered datum of the shape is made
    of ASCII characters. *)
Fixpoint ascii_shape (sh : shape) : bool :=
  match sh with
  | Denied _ => true
  | Opened vals _ kids _ _ =>
      forallb ascii_value vals
      && forallb (fun k => is_ascii (fst k) && ascii_shape (snd k)) kids
  end.

Lemma is_ascii_app a b : is_ascii (a +:+ b) = is_ascii a && is_ascii b.
Proof.
  induction a as [|c a IH]; [reflexivity|].
  rewrite app_cons. simpl. now rewrite IH, andb_assoc.
Qed.

Lemma is_ascii_split sep s :
  is_ascii s = true -> Forall (fun seg => is_ascii seg = true) (split sep s).
Proof.
  induction s as [|c s IH]; simpl; intros H.
  - repeat constructor.
  - apply andb_true_iff in H as [Hc Hs]. specialize (IH Hs).
    destruct (Ascii.eqb c sep).
    + constructor; [reflexivity | exact IH].
    + pose proof (split_nonempty sep s) as Hne.
      destruct (split sep s) as [|seg rest]; [congruence|].
      inversion IH as [|? ? Hseg Hrest]; subst.
      constructor; [|exact Hrest]. simpl. now rewrite Hc, Hseg.
Qed.

Lemma is_ascii_key_name path :
  is_ascii path = true -> is_ascii (key_name_of path) = true.
Proof.
  intros H. unfold key_name_of. destruct (str_in "\" path); [|exact H].
  pose proof (is_ascii_split backslash path H) as Hall.
  rewrite List.Forall_forall in Hall. apply Hall.
  apply last_item_in, split_nonempty.
Qed.

Lemma is_ascii_child_path path name :
  is_ascii path = true -> is_ascii name = true ->
  is_ascii (child_path path name) = true.
Proof.
  intros Hp Hn. unfold child_path. destruct (truthy path); [|exact Hn].
  rewrite !is_ascii_app, Hp, Hn. reflexivity.
Qed.

Lemma scanned_ascii sh :
  forall path q vals,
    is_ascii path = true -> ascii_shape sh = true ->
    In (q, vals) (scanned path sh) ->
    is_ascii q = true /\ forallb ascii_value vals = true.
Proof.
  induction sh as [e | vals0 vstop kids kstop close IH] using shape_ind';
    intros path q vals Hp Hsh Hin; simpl in Hin; [contradiction|].
  simpl in Hsh. apply andb_true_iff in Hsh as [Hvals Hkids].
  destruct Hin as [Heq | Hin]; [injection Heq as <- <-; now split|].
  apply in_flat_map in Hin as (k & Hk & Hin).
  rewrite forallb_forall in Hkids. specialize (Hkids k Hk).
  apply andb_true_iff in Hkids as [Hname Hsub].
  rewrite List.Forall_forall in IH.
  apply (IH k Hk (child_path path (fst k))); [|exact Hsub|exact Hin].
  now apply is_ascii_child_path.
Qed.

(** On ASCII strings a case-sensitive match is a case-insensitive one,
    and a match of a term is a match of each of its parts. *)
Lemma test_insensitive lower candidate term :
  lowers_ascii lower ->
  is_ascii candidate = true -> is_ascii term = true ->
  test lower candidate term true = true ->
  test lower candidate term false = true.
Proof.
  intros Hl Hc Ht. unfold test, folded. rewrite (Hl _ Hc), (Hl _ Ht).
  apply str_in_lower.
Qed.

Lemma test_part lower candidate term part cs :
  lowers_ascii lower ->
  is_ascii candidate = true -> is_ascii term = true -> is_ascii part = true ->
  str_in part term = true ->
  test lower candidate term cs = true ->
  test lower candidate part cs = true.
Proof.
  intros Hl Hc Ht Hp Hsub. unfold test, folded. destruct cs.
  - now apply str_in_trans.
  - rewrite (Hl _ Hc), (Hl _ Ht), (Hl _ Hp).
    apply str_in_trans. now apply str_in_lower.
Qed.

(** If every candidate the scan tests keeps matching, every record stays. *)
Lemma expected_records_mono lower path term cs term' cs' sh :
  is_ascii path = true -> ascii_shape sh = true ->
  (forall candidate,
      is_ascii candidate = true ->
      test lower candidate term cs = true ->
      test lower candidate term' cs' = true) ->
  forall r,
    In r (expected_records lower path term cs sh) ->
    In r (expected_records lower path term' cs' sh).
Proof.
  intros Hp Hsh Hm [[q kind] payload]. rewrite !expected_records_iff.
  intros (vals & Hsc & Hj). exists vals. split; [exact Hsc|].
  destruct (scanned_ascii _ _ _ _ Hp Hsh Hsc) as [Hq Hvals].
  destruct Hj as [(-> & -> & H) | (name & data & ty & Hv & Hj)].
  - left. split; [reflexivity|]. split; [reflexivity|].
    apply test_iff. apply Hm; [now apply is_ascii_key_name|].
    now apply test_iff.
  - right. exists name, data, ty. split; [exact Hv|].
    rewrite forallb_forall in Hvals. specialize (Hvals _ Hv).
    simpl in Hvals. apply andb_true_iff in Hvals as [Hname Hdata].
    destruct Hj as [(-> & -> & H) | (rendered & -> & -> & -> & H)].
    + left. split; [reflexivity|]. split; [reflexivity|].
      apply test_iff. apply Hm; [exact Hname|]. now apply test_iff.
    + right. exists rendered. repeat (split; [reflexivity|]).
      apply test_iff. apply Hm; [exact Hdata|]. now apply test_iff.
Qed.

(** X6. On a store and a search term of ASCII characters, every record of
    the case-sensitive scan is also in the result of the case-insensitive
    scan for the same term.  (Beyond ASCII this fails for Python's
    [str.lower], whose result for a letter can depend on its neighbours.) *)
Theorem case_sensitive_results_are_insensitive_results
    (lower : string -> string) reg root path term sh :
  lowers_ascii lower ->
  is_ascii term = true ->
  is_ascii path = true ->
  ascii_shape sh = true ->
  describes reg root path sh ->
  exists sensitive insensitive,
    returns_with lower reg root path term true sensitive
    /\ returns_with lower reg root path term false insensitive
    /\ forall r, In r sensitive -> In r insensitive.
Proof.
  intros Hl Ht Hp Hsh Hd.
  exists (expected_records lower path term true sh),
         (expected_records lower path term false sh).
  split; [now apply scan_expected_any|]. split; [now apply scan_expected_any|].
  apply expected_records_mono; [exact Hp|exact Hsh|].
  intros candidate Hc. now apply test_insensitive.
Qed.

Lemma case_sensitive_results_are_insensitive_results_witness :
  exists sensitive insensitive,
    returns_with PyStr.lower app_registry HKEY_USERS "" "App" true sensitive
    /\ returns_with PyStr.lower app_registry HKEY_USERS "" "App" false
         insensitive
    /\ forall r, In r sensitive -> In r insensitive.
Proof.
  apply (case_sensitive_results_are_insensitive_results PyStr.lower
           app_registry HKEY_USERS "" "App" app_root_shape).
  - intros s _. reflexivity.
  - reflexivity.
  - reflexivity.
  - reflexivity.
  - describe.
Defined.

(** X8. On a store and search terms of ASCII characters, searching for a
    part of a term finds at least what the term finds: if [part in term],
    every record of the scan for [term] is in the result of the scan for
    [part]. *)
Theorem shorter_term_finds_more (lower : string -> string) reg root path
    term part cs sh :
  lowers_ascii lower ->
  is_ascii term = true ->
  is_ascii part = true ->
  is_ascii path = true ->
  ascii_shape sh = true ->
  str_in part term = true ->
  describes reg root path sh ->
  exists for_term for_part,
    returns_with lower reg root path term cs for_term
    /\ returns_with lower reg root path part cs for_part
    /\ forall r, In r for_term -> In r for_part.
Proof.
  intros Hl Ht Hpart Hp Hsh Hsub Hd.
  exists (expected_records lower path term cs sh),
         (expected_records lower path part cs sh).
  split; [now apply scan_expected_any|]. split; [now apply scan_expected_any|].
  apply expected_records_mono; [exact Hp|exact Hsh|].
  intros candidate Hc. now apply test_part.
Qed.

Lemma shorter_term_finds_more_witness :
  exists for_term for_part,
    returns_with PyStr.lower app_registry HKEY_USERS "" ".DLL" false for_term
    /\ returns_with PyStr.lower app_registry HKEY_USERS "" "DL" false for_part
    /\ forall r, In r for_term -> In r for_part.
Proof.
  apply (shorter_term_finds_more PyStr.lower app_registry HKEY_USERS ""
           ".DLL" "DL" false app_root_shape).
  - intros s _. reflexivity.
  - reflexivity.
  - reflexivity.
  - reflexivity.
  - reflexivity.
  - reflexivity.
  - describe.
Defined.

End AnyLower.
